(** * An arbitrary-precision signed decimal integer ([bigint.hpp])

    Shallow embedding of the [bigint] class and proofs about its
    constructors, comparison, arithmetic operators and output operator.

    Conventions of the embedding:
    - [std::vector<uint8_t>] is a [list Z] whose head is index 0 (the digits
      are stored least-significant first); every store into the vector is
      reduced modulo 256;
    - [v[i]] on a vector or a string is a checked read: outside of the
      container the C++ behaviour is undefined, which the embedding reports
      as the error [index_out_of_range];
    - a [throw std::invalid_argument(msg)] is the error [invalid_argument msg];
    - [int64_t] is a [Z] in the range [-2^63, 2^63), negation wraps around. *)

From Stdlib Require Import ZArith Bool Ascii Lia.
From stdpp Require Import base list strings.

Local Open Scope Z_scope.

(** ** Errors and the error monad *)

Inductive error : Type :=
| invalid_argument (what : string)
| index_out_of_range.

Inductive result (A : Type) : Type :=
| Ok (a : A)
| Err (e : error).

Arguments Ok {A} a.
Arguments Err {A} e.

Definition bind {A B : Type} (m : result A) (k : A -> result B) : result B :=
  match m with
  | Ok a => k a
  | Err e => Err e
  end.

Notation "x <- m ;; k" := (bind m (fun x => k))
  (at level 20, m at level 99, k at level 200, format "x  <-  m  ;;  '/' k").
Notation "' p <- m ;; k" := (bind m (fun x => match x with p => k end))
  (at level 20, p pattern, m at level 99, k at level 200,
   format "' p  <-  m  ;;  '/' k").

Definition is_ok {A : Type} (m : result A) : bool :=
  match m with Ok _ => true | Err _ => false end.

(** [v[i]]: a read of a vector (or string) element. *)
Definition vec_at {A : Type} (v : list A) (i : nat) : result A :=
  match v !! i with
  | Some x => Ok x
  | None => Err index_out_of_range
  end.

(** [v[i] = x]: a store into an existing vector element. *)
Definition vec_set {A : Type} (v : list A) (i : nat) (x : A) : result (list A) :=
  if (i <? length v)%nat then Ok (<[i:=x]> v) else Err index_out_of_range.

(** [for (; i < hi; i++) body]: the loop state is threaded through [body]. *)
Fixpoint for_count {S : Type} (body : nat -> S -> result S)
    (i count : nat) (s : S) : result S :=
  match count with
  | O => Ok s
  | Datatypes.S c => s' <- body i s ;; for_count body (Datatypes.S i) c s'
  end.

Definition for_range {S : Type} (lo hi : nat) (body : nat -> S -> result S)
    (s : S) : result S :=
  for_count body lo (hi - lo) s.

(** Conversion to [uint8_t]. *)
Definition to_uint8 (z : Z) : Z := z mod 256.

(** ** The class *)

Record bigint : Type := mk_bigint {
  digits : list Z;        (* std::vector<uint8_t>, reverse order *)
  is_negative : bool
}.

(** *** removeLeadingZeros *)

Fixpoint pop_zeros (fuel : nat) (ds : list Z) : list Z :=
  match fuel with
  | O => ds
  | Datatypes.S f =>
      if (1 <? length ds)%nat && (List.last ds 0 =? 0)
      then pop_zeros f (removelast ds)
      else ds
  end.

Definition removeLeadingZeros (a : bigint) : bigint :=
  let ds := pop_zeros (length (digits a)) (digits a) in
  let neg :=
    if (length ds =? 1)%nat && (nth 0 ds 0 =? 0) then false else is_negative a in
  {| digits := ds; is_negative := neg |}.

(** *** Constructors *)

(** [bigint()] *)
Definition bigint_default : bigint := {| digits := [0]; is_negative := false |}.

Definition int64_min : Z := - 2 ^ 63.
Definition int64_max : Z := 2 ^ 63 - 1.

Definition in_int64 (z : Z) : bool := (int64_min <=? z) && (z <=? int64_max).

(** Two's complement wrap-around of a 64-bit signed result. *)
Definition wrap_int64 (z : Z) : Z := (z + 2 ^ 63) mod 2 ^ 64 - 2 ^ 63.

(** [while (value > 0) { push_back(value % 10); value /= 10; }]
    A positive 64-bit value has at most 19 decimal digits, so the loop body
    runs at most 19 times; [fuel] bounds the number of iterations. *)
Fixpoint int_digits_loop (fuel : nat) (value : Z) (ds : list Z) : list Z :=
  match fuel with
  | O => ds
  | Datatypes.S f =>
      if 0 <? value
      then int_digits_loop f (Z.quot value 10) (ds ++ [to_uint8 (Z.rem value 10)])
      else ds
  end.

(** [bigint(int64_t value)].  The constructor has no member initialiser for
    [is_negative] and assigns it only when [value < 0]; [indeterminate] is the
    content the flag has otherwise. *)
Definition bigint_of_int64 (indeterminate : bool) (value : Z) : bigint :=
  let neg := if value <? 0 then true else indeterminate in
  let value := if value <? 0 then wrap_int64 (- value) else value in
  let ds := if value =? 0 then [0] else [] in
  {| digits := int_digits_loop 64 value ds; is_negative := neg |}.

Definition char_code (c : ascii) : Z := Z.of_nat (nat_of_ascii c).

(** [std::isdigit] in the "C" locale. *)
Definition isdigit (c : ascii) : bool := (48 <=? char_code c) && (char_code c <=? 57).

(** [for (size_t i = value.size(); i > start; i--)] of the string constructor. *)
Fixpoint parse_loop (i start : nat) (value : list ascii) (ds : list Z)
    : result (list Z) :=
  match i with
  | O => Ok ds
  | Datatypes.S i' =>
      if (start <? i)%nat then
        c <- vec_at value i' ;;
        if isdigit c
        then parse_loop i' start value (ds ++ [to_uint8 (char_code c - 48)])
        else Err (invalid_argument "Invalid digit in string"%string)
      else Ok ds
  end.

(** [bigint(const std::string &value)] *)
Definition bigint_of_string (value : list ascii) : result bigint :=
  match value with
  | [] => Err (invalid_argument "Invalid input string"%string)
  | c0 :: _ =>
      let '(neg, start) :=
        if Ascii.eqb c0 "-"%char then (true, 1%nat) else (false, 0%nat) in
      ds <- parse_loop (length value) start value [] ;;
      Ok (removeLeadingZeros {| digits := ds; is_negative := neg |})
  end.

(** *** Comparison *)

(** [operator==] *)
Definition digits_eqb (x y : list Z) : bool :=
  (length x =? length y)%nat && forallb (fun p => fst p =? snd p) (combine x y).

Definition eq_op (a b : bigint) : bool :=
  Bool.eqb (is_negative a) (is_negative b) && digits_eqb (digits a) (digits b).

(** [operator!=] *)
Definition ne_op (a b : bigint) : bool := negb (eq_op a b).

(** The digit scan of [operator<] for two non-negative values; [None] means
    that the loop ended without returning. *)
Fixpoint lt_scan_nonneg (i : nat) (x y : list Z) : result (option bool) :=
  match i with
  | O => Ok None
  | Datatypes.S i' =>
      xi <- vec_at x i' ;;
      yi <- vec_at y i' ;;
      if xi <? yi then Ok (Some true)
      else if xi >? yi then Ok (Some false)
      else lt_scan_nonneg i' x y
  end.

(** The digit scan of [operator<] for two negative values. *)
Fixpoint lt_scan_neg (i : nat) (x y : list Z) : result (option bool) :=
  match i with
  | O => Ok None
  | Datatypes.S i' =>
      xi <- vec_at x i' ;;
      yi <- vec_at y i' ;;
      if xi >? yi then Ok (Some true)
      else if xi <? yi then Ok (Some false)
      else lt_scan_neg i' x y
  end.

(** [operator<] *)
Definition lt_op (a b : bigint) : result bool :=
  if is_negative a && negb (is_negative b) then Ok true
  else if negb (is_negative a) && is_negative b then Ok false
  else if (length (digits a) <? length (digits b))%nat then Ok true
  else if (length (digits b) <? length (digits a))%nat then Ok false
  else
    r <- (if negb (is_negative a)
          then lt_scan_nonneg (length (digits a)) (digits a) (digits b)
          else lt_scan_neg (length (digits a)) (digits a) (digits b)) ;;
    match r with
    | Some b => Ok b
    | None => Ok false
    end.

(** [operator<=] *)
Definition le_op (a b : bigint) : result bool :=
  l <- lt_op a b ;;
  if l then Ok true else Ok (eq_op a b).

(** [operator>] *)
Definition gt_op (a b : bigint) : result bool :=
  l <- le_op a b ;; Ok (negb l).

(** [operator>=] *)
Definition ge_op (a b : bigint) : result bool :=
  l <- lt_op a b ;; Ok (negb l).

(** *** Unary negation *)

Definition neg_op (a : bigint) : bigint :=
  {| digits := digits a; is_negative := negb (is_negative a) |}.

(** *** Addition *)

(** [addDigits].  The sums are computed in [int] and stored in a [uint8_t]. *)
Definition addDigits (largerDigits smallerDigits : list Z) : result bigint :=
  '(ds, carry) <-
    for_range 0 (length smallerDigits)
      (fun i '(ds, carry) =>
         l <- vec_at largerDigits i ;;
         s <- vec_at smallerDigits i ;;
         let sum := to_uint8 (l + s + carry) in
         Ok (ds ++ [to_uint8 (Z.rem sum 10)], to_uint8 (Z.quot sum 10)))
      ([], 0) ;;
  '(ds, carry) <-
    for_range (length smallerDigits) (length largerDigits)
      (fun i '(ds, carry) =>
         l <- vec_at largerDigits i ;;
         let sum := to_uint8 (l + carry) in
         Ok (ds ++ [to_uint8 (Z.rem sum 10)], to_uint8 (Z.quot sum 10)))
      (ds, carry) ;;
  let ds := if carry =? 0 then ds else ds ++ [carry] in
  Ok (removeLeadingZeros {| digits := ds; is_negative := false |}).

(** The choice of the longer operand made by [operator+] and [operator-]. *)
Definition order_by_size (x y : list Z) : list Z * list Z :=
  if (length y <=? length x)%nat then (x, y) else (y, x).

(** [subtractDigits]: appends the digits of [larger - smaller] to those of
    its first argument (the reference parameter [result] of the source). *)
Definition subtractDigits (res larger smaller : bigint) : result bigint :=
  '(ds, borrow) <-
    for_range 0 (length (digits smaller))
      (fun i '(ds, borrow) =>
         l <- vec_at (digits larger) i ;;
         s <- vec_at (digits smaller) i ;;
         let diff := l - s - borrow in
         let '(diff, borrow) := if diff <? 0 then (diff + 10, 1) else (diff, 0) in
         Ok (ds ++ [to_uint8 diff], borrow))
      (digits res, 0) ;;
  '(ds, borrow) <-
    for_range (length (digits smaller)) (length (digits larger))
      (fun i '(ds, borrow) =>
         l <- vec_at (digits larger) i ;;
         let diff := l - borrow in
         let '(diff, borrow) := if diff <? 0 then (diff + 10, 1) else (diff, 0) in
         Ok (ds ++ [to_uint8 diff], borrow))
      (ds, borrow) ;;
  Ok (removeLeadingZeros {| digits := ds; is_negative := is_negative res |}).

(** [operator-] (binary) *)
Definition sub_op (a b : bigint) : result bigint :=
  if Bool.eqb (is_negative a) (is_negative b) then
    if is_negative a then
      c <- le_op a b ;;
      if c
      then subtractDigits {| digits := []; is_negative := true |} a b
      else subtractDigits {| digits := []; is_negative := false |} b a
    else
      c <- ge_op a b ;;
      if c
      then subtractDigits {| digits := []; is_negative := is_negative a |} a b
      else subtractDigits {| digits := []; is_negative := negb (is_negative a) |} b a
  else
    let '(largerDigits, smallerDigits) := order_by_size (digits a) (digits b) in
    r <- addDigits largerDigits smallerDigits ;;
    if is_negative a
    then Ok {| digits := digits r; is_negative := true |}
    else Ok {| digits := digits r; is_negative := false |}.

(** [operator+] *)
Definition add_op (a b : bigint) : result bigint :=
  if Bool.eqb (is_negative a) (is_negative b) then
    let '(largerDigits, smallerDigits) := order_by_size (digits a) (digits b) in
    r <- addDigits largerDigits smallerDigits ;;
    Ok {| digits := digits r; is_negative := is_negative a |}
  else sub_op a (neg_op b).

(** *** Multiplication *)

(** The inner loop of [operator*]; the state is the buffer and the carry.
    [multi] is an [int]: with [uint8_t] digits it stays far below [2^31]. *)
Definition mul_inner (x y : list Z) (i : nat) (buf : list Z)
    : result (list Z * Z) :=
  for_range 0 (length y)
    (fun j '(buf, carry) =>
       xi <- vec_at x i ;;
       yj <- vec_at y j ;;
       r <- vec_at buf (i + j) ;;
       let multi := xi * yj + r + carry in
       buf <- vec_set buf (i + j) (to_uint8 (Z.rem multi 10)) ;;
       Ok (buf, Z.quot multi 10))
    (buf, 0).

(** [operator*] *)
Definition mul_op (a b : bigint) : result bigint :=
  let neg := negb (Bool.eqb (is_negative a) (is_negative b)) in
  let buf := replicate (length (digits a) + length (digits b)) 0 in
  buf <-
    for_range 0 (length (digits a))
      (fun i buf =>
         '(buf, carry) <- mul_inner (digits a) (digits b) i buf ;;
         r <- vec_at buf (i + length (digits b)) ;;
         vec_set buf (i + length (digits b)) (to_uint8 (r + carry)))
      buf ;;
  Ok (removeLeadingZeros {| digits := buf; is_negative := neg |}).

(** *** Compound assignment
    [*this = *this + other; return *this;] and its two siblings.  As for the
    increments, the first component is the new content of the object, the
    second the value of the expression. *)



Definition mul_assign (a b : bigint) : result (bigint * bigint) :=
  r <- mul_op a b ;; Ok (r, r).

(** *** Increment and decrement
    The first component is the new content of the object, the second the
    value of the expression. *)





(** *** Output *)

Definition digit_char (d : Z) : ascii := ascii_of_nat (Z.to_nat (48 + d)).

(** [os << static_cast<int>(d)] for a [uint8_t] [d]. *)
Definition print_int (d : Z) : list ascii :=
  if d <? 10 then [digit_char d]
  else if d <? 100 then [digit_char (d / 10); digit_char (d mod 10)]
  else [digit_char (d / 100); digit_char (d / 10 mod 10); digit_char (d mod 10)].

Fixpoint print_loop (i : nat) (ds : list Z) (os : list ascii)
    : result (list ascii) :=
  match i with
  | O => Ok os
  | Datatypes.S i' =>
      d <- vec_at ds i' ;;
      print_loop i' ds (os ++ print_int d)
  end.

(** [operator<<] *)
Definition format (value : bigint) : result (list ascii) :=
  let os := if is_negative value then ["-"%char] else [] in
  print_loop (length (digits value)) (digits value) os.

(** ** Specification vocabulary *)

(** The number denoted by a digit sequence (least-significant digit first). *)
Fixpoint eval (ds : list Z) : Z :=
  match ds with
  | [] => 0
  | d :: tl => d + 10 * eval tl
  end.

(** The integer denoted by a [bigint]. *)
Definition value_of (a : bigint) : Z :=
  if is_negative a then - eval (digits a) else eval (digits a).

(** The four invariants of the data model, as decidable predicates. *)

(** 1. The digit sequence is never empty. *)
Definition inv_nonempty (a : bigint) : bool :=
  negb (length (digits a) =? 0)%nat.

(** 2. The most significant digit is not zero, unless the sequence is the
    single digit of zero. *)
Definition inv_no_leading_zero (a : bigint) : bool :=
  negb (List.last (digits a) 1 =? 0) || (length (digits a) =? 1)%nat.

(** 3. A zero magnitude is never negative. *)
Definition inv_no_negative_zero (a : bigint) : bool :=
  negb (forallb (fun d => d =? 0) (digits a)) || negb (is_negative a).

(** 4. Every digit is in the range 0 to 9. *)
Definition digit_ok (d : Z) : bool := (0 <=? d) && (d <=? 9).

Definition inv_digit_range (a : bigint) : bool :=
  forallb digit_ok (digits a).

Definition invariants (a : bigint) : bool :=
  inv_nonempty a && inv_no_leading_zero a && inv_no_negative_zero a
  && inv_digit_range a.

(** *** Text

    A [std::string] is the list of its characters. *)
Definition of_text (s : string) : list ascii := String.list_ascii_of_string s.

(** The parse grammar of the specification: an optional leading '-' followed
    by one or more ASCII decimal digits. *)
Definition has_sign (s : list ascii) : bool :=
  match s with
  | c :: _ => Ascii.eqb c "-"%char
  | [] => false
  end.

Definition text_body (s : list ascii) : list ascii :=
  if has_sign s then drop 1 s else s.

Definition matches_grammar (s : list ascii) : bool :=
  negb (length (text_body s) =? 0)%nat && forallb isdigit (text_body s).

(** The canonical form of a text of the grammar, in the words of the
    specification: leading zeros are stripped and "-0" becomes "0". *)
Fixpoint strip_leading_zeros (s : list ascii) : list ascii :=
  match s with
  | c :: (_ :: _) as tl => if Ascii.eqb c "0"%char then strip_leading_zeros tl else s
  | _ => s
  end.

Definition is_zero_text (s : list ascii) : bool :=
  match s with
  | [c] => Ascii.eqb c "0"%char
  | _ => false
  end.

Definition canonical (s : list ascii) : list ascii :=
  let m := strip_leading_zeros (text_body s) in
  if has_sign s && negb (is_zero_text m) then "-"%char :: m else m.

(** The digit denoted by a character, as computed by the string constructor. *)
Definition digit_value (c : ascii) : Z := to_uint8 (char_code c - 48).

(** *** Loop invariants *)

(** A decimal digit. *)
Definition is_digit (d : Z) : Prop := 0 <= d <= 9.

(** The invariant of the inner loop of [operator*] in pass [i], where [xi] is
    digit [i] of the left operand, [y] the digits of the right operand and
    [buf0] the buffer at the start of the pass. *)
Definition mul_inner_inv (y : list Z) (i : nat) (xi : Z) (buf0 : list Z)
    (j : nat) (st : list Z * Z) : Prop :=
  length (fst st) = length buf0 /\
  Forall is_digit (fst st) /\
  0 <= snd st <= 9 /\
  eval (fst st) + snd st * 10 ^ Z.of_nat (i + j) =
    eval buf0 + xi * 10 ^ Z.of_nat i * eval (take j y) /\
  (forall k, (i + j <= k)%nat -> fst st !! k = buf0 !! k).

(** The invariant of the outer loop of [operator*]. *)
Definition mul_outer_inv (x y : list Z) (i : nat) (buf : list Z) : Prop :=
  length buf = (length x + length y)%nat /\
  Forall is_digit buf /\
  eval buf = eval (take i x) * eval y /\
  (forall k, (i + length y <= k)%nat -> (k < length x + length y)%nat ->
             buf !! k = Some 0).

(** The invariant of the two loops of [addDigits]: after [i] digits the
    digits written so far and the carry denote the sum of the low [i] digits
    of the operands. *)
Definition add_inv (larger smaller : list Z) (i : nat) (st : list Z * Z)
    : Prop :=
  length (fst st) = i /\
  Forall is_digit (fst st) /\
  0 <= snd st <= 1 /\
  eval (fst st) + snd st * 10 ^ Z.of_nat i =
    eval (take i larger) + eval (take i smaller).

(** The invariant of the two loops of [subtractDigits]. *)
Definition sub_inv (larger smaller : list Z) (i : nat) (st : list Z * Z)
    : Prop :=
  length (fst st) = i /\
  Forall is_digit (fst st) /\
  0 <= snd st <= 1 /\
  eval (fst st) - snd st * 10 ^ Z.of_nat i =
    eval (take i larger) - eval (take i smaller).

(** ** Generic facts *)

Section ErrorMonad.
Context {A B : Type}.

Lemma bind_ok (m : result A) (k : A -> result B) (a : A) :
  m = Ok a -> bind m k = k a.
Proof. intros ->. reflexivity. Qed.

Lemma bind_inv_ok (m : result A) (k : A -> result B) (b : B) :
  bind m k = Ok b -> exists a, m = Ok a /\ k a = Ok b.
Proof. destruct m as [a|e]; simpl; [eauto | discriminate]. Qed.

End ErrorMonad.

Lemma vec_at_ok {A : Type} (v : list A) (i : nat) (x : A) :
  v !! i = Some x -> vec_at v i = Ok x.
Proof. unfold vec_at. intros ->. reflexivity. Qed.

Lemma vec_at_lt {A : Type} (v : list A) (i : nat) :
  (i < length v)%nat -> exists x, v !! i = Some x /\ vec_at v i = Ok x.
Proof.
  intros Hi. destruct (lookup_lt_is_Some_2 v i Hi) as [x Hx].
  exists x. split; [assumption | now apply vec_at_ok].
Qed.

Lemma vec_at_ge {A : Type} (v : list A) (i : nat) :
  (length v <= i)%nat -> vec_at v i = Err index_out_of_range.
Proof. intros Hi. unfold vec_at. now rewrite lookup_ge_None_2. Qed.

Lemma vec_set_ok {A : Type} (v : list A) (i : nat) (x : A) :
  (i < length v)%nat -> vec_set v i x = Ok (<[i:=x]> v).
Proof.
  intros Hi. unfold vec_set.
  destruct (Nat.ltb_spec i (length v)); [reflexivity | lia].
Qed.

(** A loop that maintains [P] and whose body never fails runs to completion. *)
Lemma for_count_inv {S : Type} (P : nat -> S -> Prop)
    (body : nat -> S -> result S) (n : nat) :
  forall (lo : nat) (s : S),
    P lo s ->
    (forall i t, (lo <= i < lo + n)%nat -> P i t ->
                 exists t', body i t = Ok t' /\ P (Datatypes.S i) t') ->
    exists s', for_count body lo n s = Ok s' /\ P (lo + n)%nat s'.
Proof.
  induction n as [|n IH]; intros lo s Hs Hbody; simpl.
  - exists s. rewrite Nat.add_0_r. auto.
  - destruct (Hbody lo s ltac:(lia) Hs) as (t & Ht & HP).
    rewrite Ht. simpl.
    destruct (IH (Datatypes.S lo) t HP) as (s' & Hs' & HP').
    + intros i u Hi Hu. apply Hbody; [lia | assumption].
    + exists s'. split; [assumption|].
      replace (lo + Datatypes.S n)%nat with (Datatypes.S lo + n)%nat by lia.
      assumption.
Qed.

Lemma for_range_inv {S : Type} (P : nat -> S -> Prop)
    (body : nat -> S -> result S) (lo hi : nat) (s : S) :
  (lo <= hi)%nat ->
  P lo s ->
  (forall i t, (lo <= i < hi)%nat -> P i t ->
               exists t', body i t = Ok t' /\ P (Datatypes.S i) t') ->
  exists s', for_range lo hi body s = Ok s' /\ P hi s'.
Proof.
  intros Hle Hs Hbody. unfold for_range.
  destruct (for_count_inv P body (hi - lo) lo s Hs) as (s' & Hs' & HP).
  - intros i t Hi. apply Hbody. lia.
  - exists s'. split; [assumption|].
    replace hi with (lo + (hi - lo))%nat by lia. assumption.
Qed.

(** A loop whose body fails at index [k], whatever the state, fails. *)
Lemma for_count_fails {S : Type} (body : nat -> S -> result S) (e : error)
    (k : nat) :
  forall (n lo : nat) (s : S),
    (lo <= k < lo + n)%nat ->
    (forall i t, (lo <= i < k)%nat -> exists t', body i t = Ok t') ->
    (forall t, body k t = Err e) ->
    for_count body lo n s = Err e.
Proof.
  induction n as [|n IH]; intros lo s Hk Hbefore Hat; [lia|].
  cbn [for_count].
  destruct (Nat.eq_dec lo k) as [->|Hne].
  - now rewrite Hat.
  - destruct (Hbefore lo s ltac:(lia)) as [t' ->]. cbn [bind].
    apply IH; [lia | | assumption].
    intros i t Hi. apply Hbefore. lia.
Qed.

(** ** Digit sequences and their value *)

Lemma digit_ok_spec (d : Z) : digit_ok d = true <-> is_digit d.
Proof. unfold digit_ok, is_digit. lia. Qed.

Lemma forallb_digit_ok (ds : list Z) :
  forallb digit_ok ds = true <-> Forall is_digit ds.
Proof.
  rewrite forallb_forall, Forall_forall.
  split; intros H d Hd.
  - apply digit_ok_spec, H. now apply list_elem_of_In.
  - apply digit_ok_spec, H. now apply list_elem_of_In.
Qed.

Lemma to_uint8_small (z : Z) : 0 <= z < 256 -> to_uint8 z = z.
Proof. intros H. unfold to_uint8. now apply Z.mod_small. Qed.

Lemma eval_app (x y : list Z) :
  eval (x ++ y) = eval x + 10 ^ Z.of_nat (length x) * eval y.
Proof.
  induction x as [|d x IH]; simpl eval.
  - simpl. lia.
  - rewrite IH. cbn [length]. rewrite Nat2Z.inj_succ, Z.pow_succ_r by lia. ring.
Qed.

Lemma eval_snoc (x : list Z) (d : Z) :
  eval (x ++ [d]) = eval x + 10 ^ Z.of_nat (length x) * d.
Proof. rewrite eval_app. simpl. f_equal. ring. Qed.

Lemma eval_replicate_0 (n : nat) : eval (replicate n 0) = 0.
Proof. induction n as [|n IH]; simpl; [reflexivity | rewrite IH; reflexivity]. Qed.

Lemma eval_insert (l : list Z) :
  forall (i : nat) (r v : Z),
    l !! i = Some r ->
    eval (<[i:=v]> l) = eval l + (v - r) * 10 ^ Z.of_nat i.
Proof.
  induction l as [|d l IH]; intros [|i] r v H; simpl in H; try discriminate.
  - injection H as ->. simpl eval. change (Z.of_nat 0) with 0. ring.
  - change (eval (<[Datatypes.S i:=v]> (d :: l))) with (d + 10 * eval (<[i:=v]> l)).
    rewrite (IH i r v H). simpl eval.
    rewrite Nat2Z.inj_succ, Z.pow_succ_r by lia. ring.
Qed.

Lemma eval_take_S (l : list Z) (i : nat) (d : Z) :
  l !! i = Some d ->
  eval (take (Datatypes.S i) l) = eval (take i l) + 10 ^ Z.of_nat i * d.
Proof.
  intros H. rewrite (take_S_r l i d H), eval_snoc.
  rewrite length_take_le; [reflexivity|].
  apply lookup_lt_Some in H. lia.
Qed.

Lemma eval_take_S_ge (l : list Z) (i : nat) :
  (length l <= i)%nat -> eval (take (Datatypes.S i) l) = eval (take i l).
Proof. intros H. now rewrite !take_ge by lia. Qed.

Lemma eval_take_all (l : list Z) (i : nat) :
  (length l <= i)%nat -> eval (take i l) = eval l.
Proof. intros H. now rewrite take_ge by lia. Qed.

Lemma eval_bounds (l : list Z) :
  Forall is_digit l -> 0 <= eval l < 10 ^ Z.of_nat (length l).
Proof.
  induction 1 as [|d l Hd _ IH]; simpl eval.
  - simpl. lia.
  - cbn [length]. rewrite Nat2Z.inj_succ, Z.pow_succ_r by lia.
    unfold is_digit in Hd. lia.
Qed.

Lemma eval_take_bounds (l : list Z) (i : nat) :
  Forall is_digit l -> (i <= length l)%nat ->
  0 <= eval (take i l) < 10 ^ Z.of_nat i.
Proof.
  intros Hd Hi. pose proof (eval_bounds (take i l) (Forall_take _ i _ Hd)) as H.
  now rewrite length_take_le in H by lia.
Qed.

Lemma eval_zero_iff (l : list Z) :
  Forall is_digit l -> (eval l = 0 <-> forallb (fun d => d =? 0) l = true).
Proof.
  induction 1 as [|d l Hd Hl IH]; simpl.
  - tauto.
  - pose proof (eval_bounds l Hl). unfold is_digit in Hd.
    rewrite andb_true_iff, <- IH, Z.eqb_eq. lia.
Qed.

Lemma eval_lower_bound (l : list Z) :
  Forall is_digit l -> l <> [] -> List.last l 1 <> 0 ->
  10 ^ Z.of_nat (length l - 1) <= eval l.
Proof.
  destruct l as [|d l] using rev_ind; [congruence|]. intros Hd _ Hlast.
  rewrite List.last_last in Hlast. apply Forall_app in Hd as [Hl Hd].
  apply Forall_inv in Hd. unfold is_digit in Hd.
  pose proof (eval_bounds l Hl) as Hb.
  rewrite eval_snoc, length_app. cbn [length].
  replace (length l + 1 - 1)%nat with (length l) by lia.
  nia.
Qed.

(** ** removeLeadingZeros *)

Lemma pop_zeros_snoc (l : list Z) (x : Z) :
  pop_zeros (length (l ++ [x])) (l ++ [x]) =
  if negb (length l =? 0)%nat && (x =? 0)
  then pop_zeros (length l) l
  else l ++ [x].
Proof.
  rewrite length_app. cbn [length].
  replace (length l + 1)%nat with (Datatypes.S (length l)) by lia.
  cbn [pop_zeros]. rewrite length_app, List.last_last, List.removelast_last.
  cbn [length].
  destruct l as [|d l]; [destruct (x =? 0); reflexivity|].
  cbn [length].
  replace (1 <? Datatypes.S (length l) + 1)%nat with true
    by (symmetry; apply Nat.ltb_lt; lia).
  reflexivity.
Qed.

Section PopZeros.
Local Abbreviation strip ds := (pop_zeros (length ds) ds).

Lemma pop_zeros_eval (ds : list Z) : eval (strip ds) = eval ds.
Proof.
  induction ds as [|x l IH] using rev_ind; [reflexivity|].
  rewrite pop_zeros_snoc.
  destruct (negb (length l =? 0)%nat && (x =? 0)) eqn:E; [|reflexivity].
  apply andb_true_iff in E as [_ E]. apply Z.eqb_eq in E. subst x.
  rewrite IH, eval_snoc. lia.
Qed.

Lemma pop_zeros_nonempty (ds : list Z) : ds <> [] -> strip ds <> [].
Proof.
  induction ds as [|x l IH] using rev_ind; [congruence|]. intros _.
  rewrite pop_zeros_snoc.
  destruct (negb (length l =? 0)%nat && (x =? 0)) eqn:E.
  - apply IH. apply andb_true_iff in E as [E _].
    destruct l; [discriminate | congruence].
  - destruct l; discriminate.
Qed.

Lemma pop_zeros_Forall (P : Z -> Prop) (ds : list Z) :
  Forall P ds -> Forall P (strip ds).
Proof.
  induction ds as [|x l IH] using rev_ind; [auto|]. intros H.
  rewrite pop_zeros_snoc.
  destruct (negb (length l =? 0)%nat && (x =? 0)); [|assumption].
  apply IH. apply Forall_app in H. tauto.
Qed.

Lemma pop_zeros_top (ds : list Z) :
  List.last (strip ds) 1 <> 0 \/ length (strip ds) = 1%nat.
Proof.
  induction ds as [|x l IH] using rev_ind; [left; simpl; lia|].
  rewrite pop_zeros_snoc.
  destruct (negb (length l =? 0)%nat && (x =? 0)) eqn:E; [assumption|].
  apply andb_false_iff in E as [E|E].
  - right. apply negb_false_iff, Nat.eqb_eq in E.
    rewrite length_app, E. reflexivity.
  - left. rewrite List.last_last. now apply Z.eqb_neq.
Qed.

End PopZeros.

Lemma removeLeadingZeros_eval (a : bigint) :
  eval (digits (removeLeadingZeros a)) = eval (digits a).
Proof. apply pop_zeros_eval. Qed.

(** The sign kept by [removeLeadingZeros]. *)
Lemma removeLeadingZeros_sign (a : bigint) :
  Forall is_digit (digits a) -> digits a <> [] ->
  is_negative (removeLeadingZeros a) =
  is_negative a && negb (eval (digits a) =? 0).
Proof.
  intros Hd Hne. unfold removeLeadingZeros. cbn [is_negative].
  pose proof (pop_zeros_eval (digits a)) as He.
  pose proof (pop_zeros_top (digits a)) as Ht.
  pose proof (pop_zeros_nonempty (digits a) Hne) as Hn.
  pose proof (pop_zeros_Forall is_digit (digits a) Hd) as Hf.
  rewrite <- He.
  destruct (pop_zeros (length (digits a)) (digits a)) as [|d [|d' l]];
    [congruence| |].
  - cbn [length Nat.eqb nth eval andb]. replace (d + 10 * 0) with d by lia.
    destruct (d =? 0), (is_negative a); reflexivity.
  - cbn [length Nat.eqb andb].
    replace (eval (d :: d' :: l) =? 0) with false;
      [destruct (is_negative a); reflexivity|].
    symmetry. apply Z.eqb_neq. intros Hz.
    apply (eval_zero_iff _ Hf) in Hz.
    destruct Ht as [Ht|Ht]; [|discriminate].
    apply Ht. clear Ht He Hn Hf Hne Hd.
    revert Hz. generalize (d' :: l) as t. clear d' l.
    intros t. revert d. induction t as [|e t IH]; intros d Hz.
    + apply andb_true_iff in Hz as [Hz _]. apply Z.eqb_eq in Hz. exact Hz.
    + change (List.last (d :: e :: t) 1) with (List.last (e :: t) 1).
      apply IH. apply andb_true_iff in Hz as [_ Hz]. exact Hz.
Qed.

(** [removeLeadingZeros] establishes the four invariants on every non-empty
    sequence of decimal digits. *)
Lemma removeLeadingZeros_invariants (a : bigint) :
  Forall is_digit (digits a) -> digits a <> [] ->
  invariants (removeLeadingZeros a) = true.
Proof.
  intros Hd Hne.
  pose proof (removeLeadingZeros_sign a Hd Hne) as Hs.
  pose proof (removeLeadingZeros_eval a) as He.
  unfold invariants, inv_nonempty, inv_no_leading_zero, inv_no_negative_zero,
    inv_digit_range.
  rewrite Hs. clear Hs.
  pose proof (pop_zeros_top (digits a)) as Ht.
  pose proof (pop_zeros_nonempty (digits a) Hne) as Hn.
  pose proof (pop_zeros_Forall is_digit (digits a) Hd) as Hf.
  change (digits (removeLeadingZeros a))
    with (pop_zeros (length (digits a)) (digits a)) in *.
  repeat (apply andb_true_iff; split).
  - destruct (pop_zeros _ _); [congruence | reflexivity].
  - apply orb_true_iff. destruct Ht as [Ht|Ht].
    + left. apply negb_true_iff, Z.eqb_neq. assumption.
    + right. now apply Nat.eqb_eq.
  - destruct (forallb _ _) eqn:E; [|reflexivity]. simpl.
    apply (eval_zero_iff _ Hf) in E. rewrite <- He, E. simpl.
    now rewrite andb_false_r.
  - now apply forallb_digit_ok.
Qed.

(** ** The invariants, as propositions *)

Lemma invariants_digits (a : bigint) :
  invariants a = true -> Forall is_digit (digits a) /\ digits a <> [].
Proof.
  unfold invariants. rewrite !andb_true_iff. intros [[[H1 _] _] H4].
  split; [now apply forallb_digit_ok|].
  unfold inv_nonempty in H1. destruct (digits a); [discriminate | congruence].
Qed.

Lemma invariants_negative (a : bigint) :
  invariants a = true -> is_negative a = true -> eval (digits a) <> 0.
Proof.
  intros H Hn. destruct (invariants_digits a H) as [Hd _].
  unfold invariants in H. rewrite !andb_true_iff in H.
  destruct H as [[[_ _] H3] _]. unfold inv_no_negative_zero in H3.
  rewrite Hn in H3. simpl in H3. rewrite orb_false_r in H3.
  apply negb_true_iff in H3. intros Hz.
  apply (eval_zero_iff _ Hd) in Hz. congruence.
Qed.

Lemma invariants_intro (ds : list Z) (neg : bool) :
  ds <> [] -> Forall is_digit ds ->
  (List.last ds 1 <> 0 \/ length ds = 1%nat) ->
  (neg = true -> eval ds <> 0) ->
  invariants {| digits := ds; is_negative := neg |} = true.
Proof.
  intros Hne Hd Htop Hz.
  unfold invariants, inv_nonempty, inv_no_leading_zero, inv_no_negative_zero,
    inv_digit_range. cbn [digits is_negative].
  repeat (apply andb_true_iff; split).
  - destruct ds; [congruence | reflexivity].
  - apply orb_true_iff. destruct Htop as [Ht|Ht].
    + left. now apply negb_true_iff, Z.eqb_neq.
    + right. now apply Nat.eqb_eq.
  - destruct neg; [|now rewrite orb_true_r].
    rewrite orb_false_r. apply negb_true_iff.
    destruct (forallb _ ds) eqn:E; [|reflexivity].
    apply (eval_zero_iff _ Hd) in E. now destruct Hz.
  - now apply forallb_digit_ok.
Qed.

Lemma invariants_elim (a : bigint) :
  invariants a = true ->
  digits a <> [] /\ Forall is_digit (digits a) /\
  (List.last (digits a) 1 <> 0 \/ length (digits a) = 1%nat) /\
  (is_negative a = true -> eval (digits a) <> 0).
Proof.
  intros H. destruct (invariants_digits a H) as [Hd Hne].
  pose proof (invariants_negative a H) as Hn.
  repeat split; try assumption.
  unfold invariants in H. rewrite !andb_true_iff in H.
  destruct H as [[[_ H2] _] _]. unfold inv_no_leading_zero in H2.
  apply orb_true_iff in H2 as [H2|H2].
  - left. now apply negb_true_iff, Z.eqb_neq in H2.
  - right. now apply Nat.eqb_eq.
Qed.

Lemma invariants_resign (r : bigint) (neg : bool) :
  invariants r = true -> (neg = true -> eval (digits r) <> 0) ->
  invariants {| digits := digits r; is_negative := neg |} = true.
Proof.
  intros Hi Hz. destruct (invariants_elim r Hi) as (Hn & Hd & Ht & _).
  now apply invariants_intro.
Qed.

Lemma value_of_signed (r : bigint) (neg : bool) (d : Z) :
  eval (digits r) = d -> is_negative r = neg && negb (d =? 0) ->
  value_of r = if neg then - d else d.
Proof.
  intros He Hs. unfold value_of. rewrite Hs, He.
  destruct neg; cbn [andb]; [|reflexivity].
  destruct (Z.eqb_spec d 0); cbn [negb]; lia.
Qed.

(** A normalized magnitude with fewer digits is the smaller one. *)
Lemma eval_length_lt (a b : bigint) :
  invariants a = true -> invariants b = true ->
  (length (digits a) < length (digits b))%nat ->
  eval (digits a) < eval (digits b).
Proof.
  intros Ia Ib Hlen.
  destruct (invariants_elim a Ia) as (Hna & Hda & _ & _).
  destruct (invariants_elim b Ib) as (Hnb & Hdb & [Htop|Hone] & _).
  - pose proof (eval_bounds _ Hda) as Ba.
    pose proof (eval_lower_bound _ Hdb Hnb Htop) as Bb.
    assert (10 ^ Z.of_nat (length (digits a))
            <= 10 ^ Z.of_nat (length (digits b) - 1))
      by (apply Z.pow_le_mono_r; lia).
    lia.
  - destruct (digits a); [congruence | cbn [length] in Hlen; lia].
Qed.

(** ** Equality and unary negation *)

Lemma digits_eqb_refl (x : list Z) : digits_eqb x x = true.
Proof.
  unfold digits_eqb. rewrite Nat.eqb_refl. cbn [andb].
  induction x as [|d x IH]; [reflexivity|].
  cbn [combine forallb fst snd]. now rewrite Z.eqb_refl, IH.
Qed.

Lemma digits_eqb_eq (x y : list Z) : digits_eqb x y = true <-> x = y.
Proof.
  split; [|intros ->; apply digits_eqb_refl].
  unfold digits_eqb. rewrite andb_true_iff, Nat.eqb_eq.
  revert y. induction x as [|d x IH]; intros [|e y] [Hl Hf];
    try discriminate; [reflexivity|].
  cbn [combine forallb fst snd] in Hf. apply andb_true_iff in Hf as [Hd Hf].
  apply Z.eqb_eq in Hd. subst e. f_equal. apply IH. split; [|assumption].
  cbn [length] in Hl. lia.
Qed.

Lemma digits_eqb_length (x y : list Z) :
  length x <> length y -> digits_eqb x y = false.
Proof.
  intros H. unfold digits_eqb.
  destruct (Nat.eqb_spec (length x) (length y)); [contradiction | reflexivity].
Qed.

Lemma eq_op_eq (a b : bigint) : eq_op a b = true <-> a = b.
Proof.
  unfold eq_op. rewrite andb_true_iff, eqb_true_iff, digits_eqb_eq.
  destruct a, b; cbn [digits is_negative]. split.
  - intros [-> ->]. reflexivity.
  - intros H. injection H as -> ->. auto.
Qed.

(** C10: unary negation only flips the sign flag, so that negating twice gives
    back the operand, for [operator==] and structurally, on every value; the
    negation of zero is the negative zero, which breaks the invariants. *)
Theorem neg_op_involutive (a : bigint) :
  eq_op (neg_op (neg_op a)) a = true /\
  neg_op (neg_op a) = a /\
  digits (neg_op a) = digits a /\
  is_negative (neg_op a) = negb (is_negative a) /\
  neg_op bigint_default = {| digits := [0]; is_negative := true |} /\
  invariants (neg_op bigint_default) = false /\
  eq_op (neg_op (neg_op bigint_default)) bigint_default = true.
Proof.
  assert (H : neg_op (neg_op a) = a).
  { destruct a as [ds s]. unfold neg_op. cbn [digits is_negative].
    now rewrite negb_involutive. }
  repeat split; try reflexivity; try assumption.
  rewrite H. now apply eq_op_eq.
Qed.

(** ** Construction from a 64-bit integer *)

Lemma int_digits_loop_spec (fuel : nat) :
  forall (v : Z) (ds : list Z),
    0 <= v < 10 ^ Z.of_nat fuel ->
    exists ds',
      int_digits_loop fuel v ds = ds ++ ds' /\
      eval ds' = v /\ Forall is_digit ds' /\ List.last ds' 1 <> 0.
Proof.
  induction fuel as [|f IH]; intros v ds Hv.
  - exists []. cbn. rewrite app_nil_r. change (10 ^ Z.of_nat 0) with 1 in Hv.
    repeat split; [lia | constructor | lia].
  - cbn [int_digits_loop]. destruct (Z.ltb_spec 0 v) as [Hpos|Hz].
    + rewrite Nat2Z.inj_succ, Z.pow_succ_r in Hv by lia.
      rewrite Z.rem_mod_nonneg, Z.quot_div_nonneg by lia.
      pose proof (Z.mod_pos_bound v 10 ltac:(lia)) as Hmod.
      pose proof (Z.div_mod v 10 ltac:(lia)) as Hdm.
      rewrite to_uint8_small by lia.
      destruct (IH (v / 10) (ds ++ [v mod 10])) as (ds' & -> & He & Hd & Hl).
      { split; [apply Z.div_pos; lia | apply Z.div_lt_upper_bound; lia]. }
      exists (v mod 10 :: ds'). rewrite <- app_assoc. cbn [app eval].
      repeat split.
      * rewrite He. lia.
      * constructor; [unfold is_digit; lia | assumption].
      * destruct ds' as [|d ds']; [|exact Hl].
        cbn in He. cbn [List.last]. lia.
    + exists []. rewrite app_nil_r. cbn. repeat split; [lia | constructor | lia].
Qed.

(** Away from the smallest 64-bit integer the integer constructor builds the
    decimal digits of its argument; the sign flag is right when the argument is
    negative, and is whatever the object held before when it is not. *)
Lemma bigint_of_int64_spec (indeterminate : bool) (n : Z) :
  int64_min < n <= int64_max ->
  eval (digits (bigint_of_int64 indeterminate n)) = Z.abs n /\
  is_negative (bigint_of_int64 indeterminate n)
    = (if n <? 0 then true else indeterminate) /\
  (n = 0 -> indeterminate = false ->
   bigint_of_int64 indeterminate n = bigint_default) /\
  (n <> 0 -> invariants (bigint_of_int64 indeterminate n) = true).
Proof.
  unfold int64_min, int64_max. intros Hn.
  destruct (Z.eq_dec n 0) as [->|Hnz].
  { repeat split; try reflexivity; try congruence.
    intros _ ->. reflexivity. }
  assert (Hw : (if n <? 0 then wrap_int64 (- n) else n) = Z.abs n).
  { destruct (Z.ltb_spec n 0); [|lia]. unfold wrap_int64.
    rewrite Z.mod_small by lia. lia. }
  unfold bigint_of_int64. rewrite Hw. cbn [digits is_negative].
  assert (Hb : 0 <= Z.abs n < 10 ^ Z.of_nat 64).
  { assert (2 ^ 63 < 10 ^ Z.of_nat 64) by (vm_compute; reflexivity). lia. }
  destruct (Z.eqb_spec (Z.abs n) 0) as [Hz|_]; [lia|].
  destruct (int_digits_loop_spec 64 (Z.abs n) [] Hb) as (ds & -> & He & Hd & Hl).
  cbn [app]. repeat split; [assumption | lia |]. intros _.
  apply invariants_intro; auto.
  - intros ->. cbn in He. lia.
  - intros _. lia.
Qed.

(** C8, on the code: at the smallest 64-bit integer the negation
    [value = -value] wraps around to the same negative number, no digit is
    produced, and the constructor returns an empty digit sequence with the
    negative sign, which denotes 0 and not -2^63. *)
Theorem bigint_of_int64_min (indeterminate : bool) :
  in_int64 int64_min = true /\
  wrap_int64 (- int64_min) = int64_min /\
  bigint_of_int64 indeterminate int64_min
    = {| digits := []; is_negative := true |} /\
  value_of (bigint_of_int64 indeterminate int64_min) <> int64_min /\
  invariants (bigint_of_int64 indeterminate int64_min) = false.
Proof. repeat split; try reflexivity. vm_compute. discriminate. Qed.

(** ** Construction from text *)

Lemma isdigit_value (c : ascii) :
  isdigit c = true ->
  is_digit (digit_value c) /\
  print_int (digit_value c) = [c] /\
  (digit_value c =? 0) = Ascii.eqb c "0"%char /\
  Ascii.eqb c "-"%char = false.
Proof.
  destruct c as [[] [] [] [] [] [] [] []]; intros H;
    try discriminate H; vm_compute; intuition discriminate.
Qed.

Lemma parse_loop_spec (value : list ascii) (start : nat) :
  forall (i : nat) (ds : list Z),
    (start <= i <= length value)%nat ->
    parse_loop i start value ds =
    if forallb isdigit (take (i - start) (drop start value))
    then Ok (ds ++ map digit_value (rev (take (i - start) (drop start value))))
    else Err (invalid_argument "Invalid digit in string"%string).
Proof.
  induction i as [|i IH]; intros ds Hi.
  - cbn. now rewrite app_nil_r.
  - cbn [parse_loop].
    destruct (Nat.ltb_spec start (Datatypes.S i)) as [Hlt|Hge].
    + destruct (vec_at_lt value i ltac:(lia)) as (c & Hc & ->). cbn [bind].
      assert (Hd : drop start value !! (i - start)%nat = Some c).
      { rewrite lookup_drop. rewrite <- Hc. f_equal. lia. }
      replace (Datatypes.S i - start)%nat with (Datatypes.S (i - start)) by lia.
      rewrite (take_S_r _ _ _ Hd), forallb_app, rev_app_distr.
      cbn [forallb rev app map]. rewrite andb_true_r.
      destruct (isdigit c).
      * rewrite IH by lia. rewrite andb_true_r.
        destruct (forallb isdigit _); [|reflexivity].
        now rewrite <- app_assoc.
      * now rewrite andb_false_r.
    + replace (Datatypes.S i - start)%nat with 0%nat by lia.
      cbn. now rewrite app_nil_r.
Qed.

(** What the string constructor returns on every text. *)
Lemma bigint_of_string_spec (s : list ascii) :
  bigint_of_string s =
  match s with
  | [] => Err (invalid_argument "Invalid input string"%string)
  | _ =>
      if forallb isdigit (text_body s)
      then Ok (removeLeadingZeros
                 {| digits := map digit_value (rev (text_body s));
                    is_negative := has_sign s |})
      else Err (invalid_argument "Invalid digit in string"%string)
  end.
Proof.
  destruct s as [|c s]; [reflexivity|].
  unfold bigint_of_string, text_body, has_sign.
  destruct (Ascii.eqb c "-"%char).
  - rewrite parse_loop_spec by (cbn [length]; lia).
    rewrite take_ge by (rewrite length_drop; lia).
    destruct (forallb isdigit _); reflexivity.
  - rewrite parse_loop_spec by (cbn [length]; lia).
    rewrite drop_0, Nat.sub_0_r, firstn_all.
    destruct (forallb isdigit _); reflexivity.
Qed.

(** The text constructor fails exactly on the empty text and on a text with a
    character other than a digit after the optional sign. *)
Lemma bigint_of_string_fails (s : list ascii) :
  is_ok (bigint_of_string s) = false <->
  s = [] \/ forallb isdigit (text_body s) = false.
Proof.
  rewrite bigint_of_string_spec. destruct s as [|c s].
  - cbn. tauto.
  - destruct (forallb isdigit (text_body (c :: s))); cbn [is_ok];
      split; intros H; try discriminate; auto.
    destruct H; congruence.
Qed.

(** C6, on the code: the text that consists of the sign alone is accepted; the
    constructor returns a value with an empty digit sequence, which breaks the
    invariants, where the claim has the [invalid_argument] error. *)
Theorem bigint_of_string_sign_only :
  bigint_of_string ["-"%char] = Ok {| digits := []; is_negative := true |} /\
  is_ok (bigint_of_string ["-"%char]) = true /\
  invariants {| digits := []; is_negative := true |} = false.
Proof. repeat split; reflexivity. Qed.

(** C7, on the code: three public operations return values that break the
    invariants: the negation of zero is a negative zero, the text "-" gives an
    empty digit sequence, and so does the smallest 64-bit integer; the integer
    constructor moreover leaves the sign of a non-negative argument
    unassigned. *)
Theorem public_operations_break_invariants :
  invariants bigint_default = true /\
  neg_op bigint_default = {| digits := [0]; is_negative := true |} /\
  invariants (neg_op bigint_default) = false /\
  (exists v, bigint_of_string ["-"%char] = Ok v /\ invariants v = false) /\
  (forall indeterminate,
      invariants (bigint_of_int64 indeterminate int64_min) = false) /\
  (forall indeterminate n,
      is_negative (bigint_of_int64 indeterminate n) =
      if n <? 0 then true else indeterminate) /\
  invariants (bigint_of_int64 true 0) = false.
Proof.
  repeat split; try reflexivity.
  - eexists. split; reflexivity.
Qed.

(** ** Output, and the round trip through text *)

Lemma print_loop_spec (ds : list Z) :
  forall (i : nat) (os : list ascii),
    (i <= length ds)%nat ->
    print_loop i ds os = Ok (os ++ concat (map print_int (rev (take i ds)))).
Proof.
  induction i as [|i IH]; intros os Hi.
  - cbn. now rewrite app_nil_r.
  - cbn [print_loop].
    destruct (vec_at_lt ds i ltac:(lia)) as (d & Hd & ->). cbn [bind].
    rewrite IH by lia. rewrite (take_S_r _ _ _ Hd), rev_app_distr.
    cbn [rev app map concat]. now rewrite <- app_assoc.
Qed.

Lemma format_spec (a : bigint) :
  format a =
  Ok ((if is_negative a then ["-"%char] else [])
      ++ concat (map print_int (rev (digits a)))).
Proof.
  unfold format. rewrite print_loop_spec by lia. now rewrite firstn_all.
Qed.

Lemma strip_leading_zeros_digits (s : list ascii) :
  forallb isdigit s = true -> forallb isdigit (strip_leading_zeros s) = true.
Proof.
  induction s as [|c s IH]; [reflexivity|]. intros H.
  cbn [strip_leading_zeros]. destruct s as [|c' s]; [assumption|].
  destruct (Ascii.eqb c "0"%char); [|assumption].
  apply IH. cbn [forallb] in H. apply andb_true_iff in H. tauto.
Qed.

Lemma strip_leading_zeros_nonempty (s : list ascii) :
  s <> [] -> strip_leading_zeros s <> [].
Proof.
  induction s as [|c s IH]; [congruence|]. intros _.
  cbn [strip_leading_zeros]. destruct s as [|c' s]; [congruence|].
  destruct (Ascii.eqb c "0"%char); [apply IH|]; congruence.
Qed.

(** Removing the most significant zero digits of the parsed digits is
    stripping the leading zeros of the text. *)
Lemma pop_zeros_parsed (s : list ascii) :
  forallb isdigit s = true ->
  pop_zeros (length (map digit_value (rev s))) (map digit_value (rev s)) =
  map digit_value (rev (strip_leading_zeros s)).
Proof.
  induction s as [|c s IH]; [reflexivity|]. intros H.
  cbn [forallb] in H. apply andb_true_iff in H as [Hc Hs].
  destruct (isdigit_value c Hc) as (_ & _ & Hz & _).
  destruct s as [|c' s]; [cbn; now destruct (digit_value c =? 0)|].
  change (strip_leading_zeros (c :: c' :: s))
    with (if Ascii.eqb c "0"%char
          then strip_leading_zeros (c' :: s) else c :: c' :: s).
  change (rev (c :: c' :: s)) with (rev (c' :: s) ++ [c]).
  rewrite map_app. cbn [map]. rewrite pop_zeros_snoc, Hz.
  replace (length (map digit_value (rev (c' :: s))) =? 0)%nat with false
    by (rewrite length_map, length_rev; reflexivity).
  cbn [negb andb].
  destruct (Ascii.eqb c "0"%char).
  - apply IH. assumption.
  - symmetry. apply map_app.
Qed.

Lemma print_parsed (s : list ascii) :
  forallb isdigit s = true ->
  concat (map print_int (rev (map digit_value (rev s)))) = s.
Proof.
  intros H. rewrite <- map_rev, rev_involutive.
  induction s as [|c s IH]; [reflexivity|].
  cbn [forallb] in H. apply andb_true_iff in H as [Hc Hs].
  cbn [map concat]. destruct (isdigit_value c Hc) as (_ & -> & _).
  rewrite IH by assumption. reflexivity.
Qed.

Lemma parsed_digits (s : list ascii) :
  forallb isdigit s = true -> Forall is_digit (map digit_value (rev s)).
Proof.
  intros H. rewrite map_rev. apply List.Forall_rev.
  induction s as [|c s IH]; [constructor|].
  cbn [forallb] in H. apply andb_true_iff in H as [Hc Hs].
  constructor; [now apply isdigit_value | now apply IH].
Qed.

(** C9: for every text of the grammar the string constructor returns a value
    that satisfies the invariants, and printing that value gives the canonical
    form of the text; the printed text starts with '-' exactly when the value
    is negative. *)
Theorem format_parse_roundtrip (s : list ascii) :
  matches_grammar s = true ->
  exists v,
    bigint_of_string s = Ok v /\
    invariants v = true /\
    format v = Ok (canonical s) /\
    has_sign (canonical s) = is_negative v.
Proof.
  unfold matches_grammar. rewrite andb_true_iff, negb_true_iff, Nat.eqb_neq.
  intros [Hlen Hdig].
  assert (Hne : s <> []).
  { intros ->. apply Hlen. reflexivity. }
  assert (Hbody : text_body s <> []).
  { intros E. apply Hlen. now rewrite E. }
  set (p := {| digits := map digit_value (rev (text_body s));
               is_negative := has_sign s |}).
  exists (removeLeadingZeros p).
  assert (Hparse : bigint_of_string s = Ok (removeLeadingZeros p)).
  { rewrite bigint_of_string_spec, Hdig. destruct s; [congruence | reflexivity]. }
  split; [exact Hparse|].
  split.
  { apply removeLeadingZeros_invariants.
    - now apply parsed_digits.
    - cbn [digits p]. intros E. apply Hbody.
      apply (f_equal (@length Z)) in E. rewrite length_map, length_rev in E.
      destruct (text_body s); [reflexivity | discriminate]. }
  pose proof (strip_leading_zeros_digits _ Hdig) as Hm.
  pose proof (strip_leading_zeros_nonempty _ Hbody) as Hmne.
  assert (Hsign : is_negative (removeLeadingZeros p) =
                  has_sign s && negb (is_zero_text (strip_leading_zeros (text_body s)))).
  { unfold removeLeadingZeros. cbn [is_negative digits p].
    rewrite (pop_zeros_parsed _ Hdig).
    destruct (strip_leading_zeros (text_body s)) as [|c [|c' m]];
      [congruence| |].
    - cbn [rev app map length Nat.eqb andb nth is_zero_text].
      cbn [forallb] in Hm. apply andb_true_iff in Hm as [Hc _].
      destruct (isdigit_value c Hc) as (_ & _ & -> & _).
      destruct (Ascii.eqb c "0"%char), (has_sign s); reflexivity.
    - cbn [is_zero_text negb]. rewrite andb_true_r.
      rewrite length_map, length_rev. cbn [length Nat.eqb andb]. reflexivity. }
  rewrite format_spec, Hsign. unfold canonical.
  change (digits (removeLeadingZeros p))
    with (pop_zeros (length (digits p)) (digits p)).
  cbn [digits p]. rewrite (pop_zeros_parsed _ Hdig), (print_parsed _ Hm).
  destruct (has_sign s && negb (is_zero_text _)) eqn:E.
  - split; reflexivity.
  - split; [reflexivity|].
    destruct (strip_leading_zeros (text_body s)) as [|c m]; [congruence|].
    cbn [forallb] in Hm. apply andb_true_iff in Hm as [Hc _].
    cbn [has_sign]. now destruct (isdigit_value c Hc) as (_ & _ & _ & ->).
Qed.

Lemma format_parse_roundtrip_witness :
  exists v,
    bigint_of_string (of_text "-00120") = Ok v /\
    invariants v = true /\
    format v = Ok (of_text "-120") /\
    true = is_negative v.
Proof.
  exact (format_parse_roundtrip (of_text "-00120") eq_refl).
Defined.

(** ** Comparison *)

(** What [operator<] does for operands of the same sign and of different digit
    counts: the shorter one is the smaller one, whatever the sign. *)
Lemma lt_op_by_size (a b : bigint) :
  is_negative a = is_negative b ->
  length (digits a) <> length (digits b) ->
  lt_op a b = Ok (length (digits a) <? length (digits b))%nat.
Proof.
  intros Hs Hl. unfold lt_op. rewrite Hs.
  rewrite andb_negb_r, andb_negb_l.
  destruct (Nat.ltb_spec (length (digits a)) (length (digits b)));
    [reflexivity|].
  destruct (Nat.ltb_spec (length (digits b)) (length (digits a)));
    [reflexivity | lia].
Qed.

Section DigitScan.

Variables x y : list Z.
Hypothesis Hx : Forall is_digit x.
Hypothesis Hy : Forall is_digit y.

(** One more digit on top of two prefixes decides their order unless the two
    digits are equal. *)
Lemma compare_take_S (i : nat) (xi yi : Z) :
  x !! i = Some xi -> y !! i = Some yi ->
  (eval (take (Datatypes.S i) x) ?= eval (take (Datatypes.S i) y)) =
  if xi <? yi then Lt
  else if yi <? xi then Gt
  else (eval (take i x) ?= eval (take i y)).
Proof.
  intros Hxi Hyi.
  rewrite (eval_take_S _ _ _ Hxi), (eval_take_S _ _ _ Hyi).
  pose proof (eval_take_bounds x i Hx
                ltac:(apply lookup_lt_Some in Hxi; lia)) as Bx.
  pose proof (eval_take_bounds y i Hy
                ltac:(apply lookup_lt_Some in Hyi; lia)) as By.
  generalize dependent (10 ^ Z.of_nat i). intros p Bx By.
  destruct (Z.ltb_spec xi yi) as [Hlt|Hge].
  - apply Z.compare_lt_iff. nia.
  - destruct (Z.ltb_spec yi xi) as [Hgt|Hle].
    + apply Z.compare_gt_iff. nia.
    + assert (xi = yi) as -> by lia.
      rewrite !(Z.add_comm _ (p * yi)). apply Z.add_compare_mono_l.
Qed.

Lemma lt_scan_nonneg_spec (i : nat) :
  (i <= length x)%nat -> (i <= length y)%nat ->
  lt_scan_nonneg i x y =
  Ok (match eval (take i x) ?= eval (take i y) with
      | Lt => Some true
      | Gt => Some false
      | Eq => None
      end).
Proof.
  induction i as [|i IH]; intros Hix Hiy; [reflexivity|].
  cbn [lt_scan_nonneg].
  destruct (vec_at_lt x i ltac:(lia)) as (xi & Hxi & ->).
  destruct (vec_at_lt y i ltac:(lia)) as (yi & Hyi & ->). cbn [bind].
  rewrite (compare_take_S i xi yi Hxi Hyi), Z.gtb_ltb.
  destruct (xi <? yi); [reflexivity|].
  destruct (yi <? xi); [reflexivity|]. apply IH; lia.
Qed.

Lemma lt_scan_neg_spec (i : nat) :
  (i <= length x)%nat -> (i <= length y)%nat ->
  lt_scan_neg i x y =
  Ok (match eval (take i x) ?= eval (take i y) with
      | Lt => Some false
      | Gt => Some true
      | Eq => None
      end).
Proof.
  induction i as [|i IH]; intros Hix Hiy; [reflexivity|].
  cbn [lt_scan_neg].
  destruct (vec_at_lt x i ltac:(lia)) as (xi & Hxi & ->).
  destruct (vec_at_lt y i ltac:(lia)) as (yi & Hyi & ->). cbn [bind].
  rewrite (compare_take_S i xi yi Hxi Hyi), Z.gtb_ltb.
  destruct (Z.ltb_spec xi yi) as [Hlt|Hge].
  - destruct (Z.ltb_spec yi xi); [lia | reflexivity].
  - destruct (yi <? xi); [reflexivity|]. apply IH; lia.
Qed.

End DigitScan.

(** Operands of the same sign and of the same digit count are ordered as the
    integers they denote. *)
Lemma lt_op_same_length (a b : bigint) :
  Forall is_digit (digits a) -> Forall is_digit (digits b) ->
  is_negative a = is_negative b ->
  length (digits a) = length (digits b) ->
  lt_op a b = Ok (value_of a <? value_of b).
Proof.
  intros Ha Hb Hs Hl. unfold lt_op, value_of. rewrite <- Hs, <- Hl.
  rewrite andb_negb_r, andb_negb_l, Nat.ltb_irrefl.
  destruct (is_negative a); cbn [negb].
  - rewrite (lt_scan_neg_spec _ _ Ha Hb) by lia.
    rewrite firstn_all, Hl, firstn_all. cbn [bind].
    destruct (Z.compare_spec (eval (digits a)) (eval (digits b)));
      f_equal; symmetry; ((apply Z.ltb_lt; lia) || (apply Z.ltb_ge; lia)).
  - rewrite (lt_scan_nonneg_spec _ _ Ha Hb) by lia.
    rewrite firstn_all, Hl, firstn_all. cbn [bind].
    destruct (Z.compare_spec (eval (digits a)) (eval (digits b)));
      f_equal; symmetry; ((apply Z.ltb_lt; lia) || (apply Z.ltb_ge; lia)).
Qed.

(** [operator<] is the order of the integers, except on two negative operands
    of different digit counts. *)
Lemma lt_op_correct (a b : bigint) :
  invariants a = true -> invariants b = true ->
  (is_negative a = true -> is_negative b = true ->
   length (digits a) = length (digits b)) ->
  lt_op a b = Ok (value_of a <? value_of b).
Proof.
  intros Ia Ib Hneg.
  destruct (invariants_elim a Ia) as (Hna & Hda & _ & Hza).
  destruct (invariants_elim b Ib) as (Hnb & Hdb & _ & Hzb).
  pose proof (eval_bounds _ Hda) as Ba.
  pose proof (eval_bounds _ Hdb) as Bb.
  destruct (is_negative a) eqn:Sa, (is_negative b) eqn:Sb.
  - apply lt_op_same_length; auto. congruence.
  - unfold lt_op, value_of. rewrite Sa, Sb. cbn [negb andb].
    f_equal. symmetry. apply Z.ltb_lt. specialize (Hza eq_refl). lia.
  - unfold lt_op, value_of. rewrite Sa, Sb. cbn [negb andb].
    f_equal. symmetry. apply Z.ltb_ge. specialize (Hzb eq_refl). lia.
  - destruct (lt_eq_lt_dec (length (digits a)) (length (digits b)))
      as [[Hlt|Heq]|Hgt].
    + rewrite lt_op_by_size by (congruence || lia).
      pose proof (eval_length_lt a b Ia Ib Hlt).
      unfold value_of. rewrite Sa, Sb. f_equal.
      transitivity true; [now apply Nat.ltb_lt | symmetry; now apply Z.ltb_lt].
    + apply lt_op_same_length; auto. congruence.
    + rewrite lt_op_by_size by (congruence || lia).
      pose proof (eval_length_lt b a Ib Ia Hgt).
      unfold value_of. rewrite Sa, Sb. f_equal.
      transitivity false; [apply Nat.ltb_ge; lia | symmetry; apply Z.ltb_ge; lia].
Qed.

(** C2, on the code: for the normalized values -5 and -10, both negative, the
    first with fewer digits, [operator<] answers that -5 < -10, although the
    claim (and the order of the integers) makes the longer negative value the
    smaller one. *)
Theorem lt_op_negative_size_inverted :
  let a := {| digits := [5]; is_negative := true |} in
  let b := {| digits := [0; 1]; is_negative := true |} in
  invariants a = true /\ invariants b = true /\
  is_negative a = true /\ is_negative b = true /\
  (length (digits a) < length (digits b))%nat /\
  value_of b < value_of a /\
  lt_op a b = Ok true /\
  lt_op b a = Ok false.
Proof. cbv zeta. repeat split; try reflexivity. cbn. lia. Qed.

(** ** Addition of magnitudes *)

Lemma add_inv_step (larger smaller ds : list Z) (i : nat) (carry sum a b : Z) :
  add_inv larger smaller i (ds, carry) ->
  eval (take (Datatypes.S i) larger) = eval (take i larger) + 10 ^ Z.of_nat i * a ->
  eval (take (Datatypes.S i) smaller) = eval (take i smaller) + 10 ^ Z.of_nat i * b ->
  sum = a + b + carry -> 0 <= sum <= 19 ->
  add_inv larger smaller (Datatypes.S i) (ds ++ [sum mod 10], sum / 10).
Proof.
  intros (Hl & Hf & Hc & He) Ha Hb Hsum Hrange. cbn [fst snd] in *.
  pose proof (Z.mod_pos_bound sum 10 ltac:(lia)) as Hmod.
  pose proof (Z.div_mod sum 10 ltac:(lia)) as Hdm.
  unfold add_inv. cbn [fst snd]. repeat split.
  - rewrite length_app. cbn [length]. lia.
  - apply Forall_app. split; [assumption|].
    constructor; [unfold is_digit; lia | constructor].
  - lia.
  - lia.
  - rewrite eval_snoc, Ha, Hb, Hl, Nat2Z.inj_succ, Z.pow_succ_r by lia.
    generalize dependent (10 ^ Z.of_nat i). intros p He Ha Hb.
    replace (sum mod 10) with (sum - 10 * (sum / 10)) by lia.
    subst sum. lia.
Qed.

Lemma addDigits_ok (larger smaller : list Z) :
  Forall is_digit larger -> Forall is_digit smaller ->
  (length smaller <= length larger)%nat -> larger <> [] ->
  exists r,
    addDigits larger smaller = Ok r /\
    is_negative r = false /\
    eval (digits r) = eval larger + eval smaller /\
    invariants r = true.
Proof.
  intros HL HS Hlen Hne. unfold addDigits.
  match goal with
  | |- context [for_range ?lo ?hi ?body ?s] =>
      destruct (for_range_inv (add_inv larger smaller) body lo hi s)
        as ([ds1 c1] & -> & H1); [lia| | |]
  end.
  { unfold add_inv. cbn. repeat split; [constructor | lia | lia]. }
  { intros i [ds carry] Hi Hinv.
    destruct (vec_at_lt larger i ltac:(lia)) as (l & Hl & ->).
    destruct (vec_at_lt smaller i ltac:(lia)) as (s & Hs & ->). cbn [bind].
    pose proof (Forall_lookup_1 _ _ _ _ HL Hl) as Hdl.
    pose proof (Forall_lookup_1 _ _ _ _ HS Hs) as Hds.
    pose proof Hinv as (_ & _ & Hc & _). cbn [snd] in Hc.
    unfold is_digit in Hdl, Hds.
    rewrite (to_uint8_small (l + s + carry)) by lia.
    rewrite Z.rem_mod_nonneg, Z.quot_div_nonneg by lia.
    pose proof (Z.mod_pos_bound (l + s + carry) 10 ltac:(lia)).
    pose proof (Z.div_mod (l + s + carry) 10 ltac:(lia)).
    rewrite !to_uint8_small by lia.
    eexists. split; [reflexivity|].
    apply (add_inv_step larger smaller ds i carry _ l s Hinv);
      [now apply eval_take_S | now apply eval_take_S | reflexivity | lia]. }
  cbn [bind].
  match goal with
  | |- context [for_range ?lo ?hi ?body ?s] =>
      destruct (for_range_inv (add_inv larger smaller) body lo hi s)
        as ([ds2 c2] & -> & (Hl2 & Hf2 & Hc2 & He2)); [lia | assumption | |]
  end.
  { intros i [ds carry] Hi Hinv.
    destruct (vec_at_lt larger i ltac:(lia)) as (l & Hl & ->). cbn [bind].
    pose proof (Forall_lookup_1 _ _ _ _ HL Hl) as Hdl.
    pose proof Hinv as (_ & _ & Hc & _). cbn [snd] in Hc.
    unfold is_digit in Hdl.
    rewrite (to_uint8_small (l + carry)) by lia.
    rewrite Z.rem_mod_nonneg, Z.quot_div_nonneg by lia.
    pose proof (Z.mod_pos_bound (l + carry) 10 ltac:(lia)).
    pose proof (Z.div_mod (l + carry) 10 ltac:(lia)).
    rewrite !to_uint8_small by lia.
    eexists. split; [reflexivity|].
    apply (add_inv_step larger smaller ds i carry _ l 0 Hinv);
      [now apply eval_take_S | | lia | lia].
    rewrite eval_take_S_ge by lia. lia. }
  cbn [bind fst snd] in *.
  rewrite !eval_take_all in He2 by lia.
  set (ds := if c2 =? 0 then ds2 else ds2 ++ [c2]).
  assert (Hev : eval ds = eval larger + eval smaller).
  { unfold ds. destruct (Z.eqb_spec c2 0) as [->|_]; [lia|].
    rewrite eval_snoc, Hl2. lia. }
  assert (Hfd : Forall is_digit ds).
  { unfold ds. destruct (c2 =? 0); [assumption|].
    apply Forall_app. split; [assumption|].
    constructor; [unfold is_digit; lia | constructor]. }
  assert (Hnd : ds <> []).
  { unfold ds. destruct (c2 =? 0).
    - intros ->. destruct larger; [congruence | discriminate].
    - destruct ds2; discriminate. }
  set (p := {| digits := ds; is_negative := false |}).
  exists (removeLeadingZeros p). split; [reflexivity|].
  split; [|split].
  - rewrite removeLeadingZeros_sign by assumption. reflexivity.
  - rewrite removeLeadingZeros_eval. exact Hev.
  - now apply removeLeadingZeros_invariants.
Qed.

(** The sum of the two magnitudes, as [operator+] and [operator-] compute it
    after ordering the operands by digit count. *)
Lemma add_magnitudes (a b : bigint) :
  Forall is_digit (digits a) -> Forall is_digit (digits b) ->
  digits a <> [] -> digits b <> [] ->
  exists r,
    (let '(largerDigits, smallerDigits) := order_by_size (digits a) (digits b) in
     addDigits largerDigits smallerDigits) = Ok r /\
    eval (digits r) = eval (digits a) + eval (digits b) /\
    invariants r = true.
Proof.
  intros Ha Hb Hna Hnb. unfold order_by_size.
  destruct (Nat.leb_spec (length (digits b)) (length (digits a))).
  - destruct (addDigits_ok (digits a) (digits b)) as (r & Hr & _ & He & Hi);
      auto. exists r. auto.
  - destruct (addDigits_ok (digits b) (digits a)) as (r & Hr & _ & He & Hi);
      auto; [lia|]. exists r. repeat split; auto. lia.
Qed.

(** ** Subtraction *)

Lemma sub_inv_step (larger smaller ds : list Z) (i : nat) (borrow diff a b : Z) :
  sub_inv larger smaller i (ds, borrow) ->
  eval (take (Datatypes.S i) larger) = eval (take i larger) + 10 ^ Z.of_nat i * a ->
  eval (take (Datatypes.S i) smaller) = eval (take i smaller) + 10 ^ Z.of_nat i * b ->
  diff = a - b - borrow -> -10 <= diff <= 9 ->
  sub_inv larger smaller (Datatypes.S i)
    (let '(diff, borrow) := if diff <? 0 then (diff + 10, 1) else (diff, 0) in
     (ds ++ [to_uint8 diff], borrow)).
Proof.
  intros (Hl & Hf & Hc & He) Ha Hb Hdiff Hrange. cbn [fst snd] in *.
  unfold sub_inv.
  destruct (Z.ltb_spec diff 0); cbn [fst snd];
    rewrite to_uint8_small by lia;
    (repeat split;
     [ rewrite length_app; cbn [length]; lia
     | apply Forall_app; split; [assumption|];
       constructor; [unfold is_digit; lia | constructor]
     | lia | lia
     | rewrite eval_snoc, Ha, Hb, Hl, Nat2Z.inj_succ, Z.pow_succ_r by lia;
       generalize dependent (10 ^ Z.of_nat i); intros p He Ha Hb;
       subst diff; lia ]).
Qed.

Lemma subtractDigits_ok (neg : bool) (larger smaller : bigint) :
  Forall is_digit (digits larger) -> Forall is_digit (digits smaller) ->
  (length (digits smaller) <= length (digits larger))%nat ->
  digits larger <> [] ->
  eval (digits smaller) <= eval (digits larger) ->
  exists r,
    subtractDigits {| digits := []; is_negative := neg |} larger smaller = Ok r /\
    invariants r = true /\
    eval (digits r) = eval (digits larger) - eval (digits smaller) /\
    is_negative r =
      neg && negb (eval (digits larger) - eval (digits smaller) =? 0).
Proof.
  intros HL HS Hlen Hne Hle. unfold subtractDigits. cbn [digits is_negative].
  match goal with
  | |- context [for_range ?lo ?hi ?body ?s] =>
      destruct (for_range_inv
                  (sub_inv (digits larger) (digits smaller)) body lo hi s)
        as ([ds1 c1] & -> & H1); [lia| | |]
  end.
  { unfold sub_inv. cbn. repeat split; [constructor | lia | lia]. }
  { intros i [ds borrow] Hi Hinv.
    destruct (vec_at_lt (digits larger) i ltac:(lia)) as (l & Hl & ->).
    destruct (vec_at_lt (digits smaller) i ltac:(lia)) as (s & Hs & ->).
    cbn [bind].
    pose proof (Forall_lookup_1 _ _ _ _ HL Hl) as Hdl.
    pose proof (Forall_lookup_1 _ _ _ _ HS Hs) as Hds.
    pose proof Hinv as (_ & _ & Hc & _). cbn [snd] in Hc.
    unfold is_digit in Hdl, Hds.
    pose proof (sub_inv_step _ _ ds i borrow (l - s - borrow) l s Hinv
                  (eval_take_S _ _ _ Hl) (eval_take_S _ _ _ Hs) eq_refl
                  ltac:(lia)) as Hstep.
    destruct (l - s - borrow <? 0); eexists; (split; [reflexivity | exact Hstep]). }
  cbn [bind].
  match goal with
  | |- context [for_range ?lo ?hi ?body ?s] =>
      destruct (for_range_inv
                  (sub_inv (digits larger) (digits smaller)) body lo hi s)
        as ([ds2 c2] & -> & (Hl2 & Hf2 & Hc2 & He2)); [lia | assumption | |]
  end.
  { intros i [ds borrow] Hi Hinv.
    destruct (vec_at_lt (digits larger) i ltac:(lia)) as (l & Hl & ->).
    cbn [bind].
    pose proof (Forall_lookup_1 _ _ _ _ HL Hl) as Hdl.
    pose proof Hinv as (_ & _ & Hc & _). cbn [snd] in Hc.
    unfold is_digit in Hdl.
    assert (Hs : eval (take (Datatypes.S i) (digits smaller)) =
                 eval (take i (digits smaller)) + 10 ^ Z.of_nat i * 0)
      by (rewrite eval_take_S_ge by lia; lia).
    pose proof (sub_inv_step _ _ ds i borrow (l - borrow) l 0 Hinv
                  (eval_take_S _ _ _ Hl) Hs ltac:(lia) ltac:(lia)) as Hstep.
    destruct (l - borrow <? 0); eexists; (split; [reflexivity | exact Hstep]). }
  cbn [bind fst snd] in *.
  rewrite !eval_take_all in He2 by lia.
  pose proof (eval_bounds ds2 Hf2) as Hb2. rewrite Hl2 in Hb2.
  assert (c2 = 0) as -> by nia.
  set (p := {| digits := ds2; is_negative := neg |}).
  assert (Hnd : digits p <> []).
  { cbn [digits p]. intros ->. destruct (digits larger); [congruence | discriminate]. }
  exists (removeLeadingZeros p). split; [reflexivity|].
  split; [now apply removeLeadingZeros_invariants|].
  split.
  - rewrite removeLeadingZeros_eval. cbn [digits p]. lia.
  - rewrite removeLeadingZeros_sign by assumption. cbn [digits is_negative p].
    f_equal. f_equal. f_equal. lia.
Qed.

(** [subtractDigits] reads past the end of [larger] as soon as [larger] has
    fewer digits than [smaller]. *)
Lemma subtractDigits_short (res larger smaller : bigint) :
  (length (digits larger) < length (digits smaller))%nat ->
  subtractDigits res larger smaller = Err index_out_of_range.
Proof.
  intros Hlen. unfold subtractDigits, for_range.
  rewrite (for_count_fails _ index_out_of_range (length (digits larger)));
    [reflexivity | lia | |].
  - intros i [ds borrow] Hi.
    destruct (vec_at_lt (digits larger) i ltac:(lia)) as (l & _ & ->).
    destruct (vec_at_lt (digits smaller) i ltac:(lia)) as (s & _ & ->).
    cbn [bind]. destruct (l - s - borrow <? 0); eauto.
  - intros [ds borrow]. now rewrite vec_at_ge by lia.
Qed.

(** Operands of different signs. *)
Lemma sub_op_mixed (a b : bigint) :
  invariants a = true -> invariants b = true ->
  is_negative a = negb (is_negative b) ->
  exists r,
    sub_op a b = Ok r /\ invariants r = true /\
    value_of r = value_of a - value_of b.
Proof.
  intros Ia Ib Hs.
  destruct (invariants_elim a Ia) as (Hna & Hda & _ & Hza).
  destruct (invariants_elim b Ib) as (Hnb & Hdb & _ & Hzb).
  pose proof (eval_bounds _ Hda) as Ba.
  pose proof (eval_bounds _ Hdb) as Bb.
  destruct (add_magnitudes a b Hda Hdb Hna Hnb) as (r & Hr & He & Hi).
  unfold sub_op, value_of. rewrite Hs.
  destruct (is_negative b) eqn:Sb; cbn [negb Bool.eqb] in *.
  - destruct (order_by_size _ _). rewrite Hr. cbn [bind].
    eexists. split; [reflexivity|]. cbn [digits is_negative].
    split; [apply invariants_resign; [assumption | discriminate] | lia].
  - destruct (order_by_size _ _). rewrite Hr. cbn [bind].
    eexists. split; [reflexivity|]. cbn [digits is_negative].
    split; [apply invariants_resign; [assumption|] | lia].
    intros _. specialize (Hza Hs). lia.
Qed.

(** Two non-negative operands. *)
Lemma sub_op_nonneg (a b : bigint) :
  invariants a = true -> invariants b = true ->
  is_negative a = false -> is_negative b = false ->
  exists r,
    sub_op a b = Ok r /\ invariants r = true /\
    value_of r = value_of a - value_of b.
Proof.
  intros Ia Ib Sa Sb.
  destruct (invariants_elim a Ia) as (Hna & Hda & _ & _).
  destruct (invariants_elim b Ib) as (Hnb & Hdb & _ & _).
  unfold sub_op, ge_op. rewrite (lt_op_correct a b Ia Ib) by congruence.
  rewrite Sa, Sb. cbn [Bool.eqb bind negb].
  assert (Va : value_of a = eval (digits a)) by (unfold value_of; now rewrite Sa).
  assert (Vb : value_of b = eval (digits b)) by (unfold value_of; now rewrite Sb).
  rewrite Va, Vb.
  destruct (Z.ltb_spec (eval (digits a)) (eval (digits b))) as [Hlt|Hge];
    cbn [negb].
  - destruct (subtractDigits_ok true b a) as (r & -> & Hi & He & Hs); auto.
    + destruct (Nat.le_gt_cases (length (digits a)) (length (digits b)));
        [assumption|].
      pose proof (eval_length_lt b a Ib Ia ltac:(lia)). lia.
    + lia.
    + exists r. repeat split; auto.
      rewrite (value_of_signed r true _ He Hs). lia.
  - destruct (subtractDigits_ok false a b) as (r & -> & Hi & He & Hs); auto.
    + destruct (Nat.le_gt_cases (length (digits b)) (length (digits a)));
        [assumption|].
      pose proof (eval_length_lt a b Ia Ib ltac:(lia)). lia.
    + exists r. repeat split; auto.
      rewrite (value_of_signed r false _ He Hs). lia.
Qed.

(** Two negative operands of the same digit count; the digit sequences need
    not be normalized. *)
Lemma sub_op_negative_same_length (a b : bigint) :
  Forall is_digit (digits a) -> Forall is_digit (digits b) ->
  digits a <> [] ->
  is_negative a = true -> is_negative b = true ->
  length (digits a) = length (digits b) ->
  exists r,
    sub_op a b = Ok r /\ invariants r = true /\
    value_of r = value_of a - value_of b.
Proof.
  intros Hda Hdb Hna Sa Sb Hlen.
  assert (Hnb : digits b <> []).
  { intros E. rewrite E in Hlen. destruct (digits a); [congruence | discriminate]. }
  unfold sub_op, le_op.
  rewrite (lt_op_same_length a b Hda Hdb) by congruence.
  rewrite Sa, Sb. cbn [Bool.eqb bind].
  assert (Va : value_of a = - eval (digits a)) by (unfold value_of; now rewrite Sa).
  assert (Vb : value_of b = - eval (digits b)) by (unfold value_of; now rewrite Sb).
  rewrite Va, Vb.
  destruct (Z.ltb_spec (- eval (digits a)) (- eval (digits b))) as [Hlt|Hge].
  - cbn [bind].
    destruct (subtractDigits_ok true a b) as (r & -> & Hi & He & Hs);
      auto; try lia.
    exists r. repeat split; auto.
    rewrite (value_of_signed r true _ He Hs). lia.
  - cbn [bind]. destruct (eq_op a b) eqn:E.
    + apply eq_op_eq in E. subst b.
      destruct (subtractDigits_ok true a a) as (r & -> & Hi & He & Hs);
        auto; try lia.
      exists r. repeat split; auto.
      rewrite (value_of_signed r true _ He Hs). lia.
    + destruct (subtractDigits_ok false b a) as (r & -> & Hi & He & Hs);
        auto; try lia.
      exists r. repeat split; auto.
      rewrite (value_of_signed r false _ He Hs). lia.
Qed.

(** [operator-] returns the exact difference, normalized, on every pair of
    operands other than two negative ones of different digit counts. *)
Theorem sub_op_exact_unless_negative_sizes (a b : bigint) :
  invariants a = true -> invariants b = true ->
  (is_negative a = true -> is_negative b = true ->
   length (digits a) = length (digits b)) ->
  exists r,
    sub_op a b = Ok r /\ invariants r = true /\
    value_of r = value_of a - value_of b.
Proof.
  intros Ia Ib Hneg.
  destruct (invariants_elim a Ia) as (Hna & Hda & _ & _).
  destruct (invariants_elim b Ib) as (Hnb & Hdb & _ & _).
  destruct (is_negative a) eqn:Sa, (is_negative b) eqn:Sb.
  - apply sub_op_negative_same_length; auto.
  - apply sub_op_mixed; auto. now rewrite Sa, Sb.
  - apply sub_op_mixed; auto. now rewrite Sa, Sb.
  - apply sub_op_nonneg; auto.
Qed.

(** Two negative operands of different digit counts: [operator-] always passes
    the shorter one as [larger], and ends in an out-of-range read. *)
Lemma sub_op_negative_sizes (a b : bigint) :
  is_negative a = true -> is_negative b = true ->
  length (digits a) <> length (digits b) ->
  sub_op a b = Err index_out_of_range.
Proof.
  intros Ha Hb Hlen. unfold sub_op, le_op.
  rewrite (lt_op_by_size a b) by congruence.
  rewrite Ha, Hb. cbn [Bool.eqb bind].
  destruct (Nat.ltb_spec (length (digits a)) (length (digits b))).
  - cbn [bind]. apply subtractDigits_short. assumption.
  - unfold eq_op. rewrite digits_eqb_length by assumption.
    rewrite andb_false_r. cbn [bind]. apply subtractDigits_short. lia.
Qed.

(** C1, on the code: for the normalized values -10 and -5 the comparison made
    by [operator-] selects -5 as the larger magnitude, [subtractDigits] then
    reads digit 1 of the one-digit operand, and the subtraction ends in an
    out-of-range access; so does the addition -5 + 10, which is computed as
    (-5) - (-10). *)
Theorem sub_op_index_out_of_range :
  let a := {| digits := [0; 1]; is_negative := true |} in
  let b := {| digits := [5]; is_negative := true |} in
  let c := {| digits := [0; 1]; is_negative := false |} in
  invariants a = true /\ invariants b = true /\ invariants c = true /\
  le_op a b = Ok false /\
  (length (digits b) < length (digits a))%nat /\
  vec_at (digits b) 1 = Err index_out_of_range /\
  subtractDigits {| digits := []; is_negative := false |} b a
    = Err index_out_of_range /\
  sub_op a b = Err index_out_of_range /\
  is_ok (add_op b c) = false.
Proof. cbv zeta. repeat split; try reflexivity. cbn. lia. Qed.

(** C3, on the code: (-10) - (-5) and (-5) - (-10) do not produce the exact
    differences -5 and 5, they end in an out-of-range access. *)
Theorem sub_op_negative_not_exact :
  let a := {| digits := [0; 1]; is_negative := true |} in
  let b := {| digits := [5]; is_negative := true |} in
  invariants a = true /\ invariants b = true /\
  value_of a - value_of b = -5 /\
  sub_op a b = Err index_out_of_range /\
  value_of b - value_of a = 5 /\
  sub_op b a = Err index_out_of_range.
Proof. cbv zeta. repeat split; reflexivity. Qed.

(** ** Addition *)

(** [operator+] returns the exact sum, normalized, on every pair of operands
    other than a negative left operand with a non-negative right operand of a
    different digit count. *)
Theorem add_op_exact_unless_negative_sizes (a b : bigint) :
  invariants a = true -> invariants b = true ->
  (is_negative a = true -> is_negative b = false ->
   length (digits a) = length (digits b)) ->
  exists r,
    add_op a b = Ok r /\ invariants r = true /\
    value_of r = value_of a + value_of b.
Proof.
  intros Ia Ib Hneg.
  destruct (invariants_elim a Ia) as (Hna & Hda & Hta & Hza).
  destruct (invariants_elim b Ib) as (Hnb & Hdb & Htb & Hzb).
  pose proof (eval_bounds _ Hda) as Ba.
  pose proof (eval_bounds _ Hdb) as Bb.
  unfold add_op.
  destruct (is_negative a) eqn:Sa, (is_negative b) eqn:Sb; cbn [Bool.eqb].
  - destruct (add_magnitudes a b Hda Hdb Hna Hnb) as (r & Hr & He & Hi).
    destruct (order_by_size _ _). rewrite Hr. cbn [bind].
    eexists. split; [reflexivity|].
    split; [apply invariants_resign; [assumption|] |].
    + intros _. specialize (Hza eq_refl). lia.
    + unfold value_of. rewrite Sa, Sb. cbn [digits is_negative]. lia.
  - assert (Sn : is_negative (neg_op b) = true)
      by (cbn [neg_op is_negative]; now rewrite Sb).
    destruct (sub_op_negative_same_length a (neg_op b) Hda Hdb Hna Sa Sn
                (Hneg eq_refl eq_refl)) as (r & Hr & Hi & Hv).
    exists r. repeat split; auto. rewrite Hv.
    unfold value_of. rewrite Sa, Sb, Sn. cbn [neg_op digits]. lia.
  - assert (Sn : is_negative (neg_op b) = false)
      by (cbn [neg_op is_negative]; now rewrite Sb).
    assert (In : invariants (neg_op b) = true)
      by (apply invariants_intro; auto; discriminate).
    destruct (sub_op_nonneg a (neg_op b) Ia In Sa Sn) as (r & Hr & Hi & Hv).
    exists r. repeat split; auto. rewrite Hv.
    unfold value_of. rewrite Sa, Sb, Sn. cbn [neg_op digits]. lia.
  - destruct (add_magnitudes a b Hda Hdb Hna Hnb) as (r & Hr & He & Hi).
    destruct (order_by_size _ _). rewrite Hr. cbn [bind].
    eexists. split; [reflexivity|].
    split; [apply invariants_resign; [assumption | discriminate] |].
    unfold value_of. rewrite Sa, Sb. cbn [digits is_negative]. lia.
Qed.



(** C4, on the code: -5 + 10 and -50 + 0, which are delegated to the
    subtraction of the negated right operand, do not produce the exact sums 5
    and -50, they end in an out-of-range access. *)
Theorem add_op_mixed_sign_not_exact :
  let a := {| digits := [5]; is_negative := true |} in
  let b := {| digits := [0; 1]; is_negative := false |} in
  let c := {| digits := [0; 5]; is_negative := true |} in
  invariants a = true /\ invariants b = true /\ invariants c = true /\
  value_of a + value_of b = 5 /\
  add_op a b = sub_op a (neg_op b) /\
  add_op a b = Err index_out_of_range /\
  value_of c + value_of bigint_default = -50 /\
  add_op c bigint_default = Err index_out_of_range.
Proof. cbv zeta. repeat split; reflexivity. Qed.

(** ** Multiplication *)

Section Multiplication.

Variables x y : list Z.
Hypothesis Hx : Forall is_digit x.
Hypothesis Hy : Forall is_digit y.

Lemma mul_inner_ok (i : nat) (xi : Z) (buf0 : list Z) :
  x !! i = Some xi ->
  length buf0 = (length x + length y)%nat ->
  Forall is_digit buf0 ->
  exists st, mul_inner x y i buf0 = Ok st /\
             mul_inner_inv y i xi buf0 (length y) st.
Proof.
  intros Hxi Hlen Hbuf0. unfold mul_inner.
  pose proof (Forall_lookup_1 _ _ _ _ Hx Hxi) as Hdx.
  pose proof (lookup_lt_Some _ _ _ Hxi) as Hi.
  apply (for_range_inv (mul_inner_inv y i xi buf0)); [lia| |].
  - unfold mul_inner_inv. cbn [fst snd]. rewrite Nat.add_0_r. simpl eval.
    repeat split; auto; lia.
  - intros j [buf carry] Hj (Hl & Hf & Hc & He & Hk). cbn [fst snd] in *.
    rewrite (vec_at_ok _ _ _ Hxi). cbn [bind].
    destruct (vec_at_lt y j ltac:(lia)) as (yj & Hyj & ->). cbn [bind].
    destruct (vec_at_lt buf (i + j) ltac:(lia)) as (r & Hr & ->). cbn [bind].
    pose proof (Forall_lookup_1 _ _ _ _ Hy Hyj) as Hdy.
    pose proof (Forall_lookup_1 _ _ _ _ Hf Hr) as Hdr.
    unfold is_digit in Hdx, Hdy, Hdr.
    remember (xi * yj + r + carry) as multi eqn:Hmulti.
    assert (Hm : 0 <= multi <= 99) by nia.
    rewrite Z.rem_mod_nonneg, Z.quot_div_nonneg by lia.
    pose proof (Z.mod_pos_bound multi 10 ltac:(lia)) as Hmod.
    pose proof (Z.div_mod multi 10 ltac:(lia)) as Hdm.
    rewrite to_uint8_small by lia.
    rewrite vec_set_ok by lia. cbn [bind].
    eexists. split; [reflexivity|].
    unfold mul_inner_inv. cbn [fst snd].
    repeat split.
    + now rewrite length_insert.
    + apply Forall_insert; [assumption | unfold is_digit; lia].
    + lia.
    + lia.
    + rewrite (eval_insert _ _ _ _ Hr), (eval_take_S _ _ _ Hyj).
      replace (Z.of_nat (i + Datatypes.S j)) with (Z.succ (Z.of_nat (i + j))) by lia.
      rewrite Z.pow_succ_r by lia.
      replace (xi * 10 ^ Z.of_nat i * (eval (take j y) + 10 ^ Z.of_nat j * yj))
        with (xi * 10 ^ Z.of_nat i * eval (take j y)
              + xi * yj * 10 ^ Z.of_nat (i + j))
        by (rewrite Nat2Z.inj_add, Z.pow_add_r by lia; ring).
      replace (multi mod 10) with (multi - 10 * (multi / 10)) by lia.
      generalize dependent (10 ^ Z.of_nat (i + j)).
      generalize (xi * 10 ^ Z.of_nat i * eval (take j y)).
      intros t p He. subst multi. lia.
    + intros k Hle. rewrite list_lookup_insert_ne by lia. apply Hk. lia.
Qed.

Lemma mul_outer_ok :
  exists buf,
    for_range 0 (length x)
      (fun i buf =>
         '(buf, carry) <- mul_inner x y i buf ;;
         r <- vec_at buf (i + length y) ;;
         vec_set buf (i + length y) (to_uint8 (r + carry)))
      (replicate (length x + length y) 0) = Ok buf /\
    mul_outer_inv x y (length x) buf.
Proof.
  apply (for_range_inv (mul_outer_inv x y)); [lia| |].
  - unfold mul_outer_inv. rewrite length_replicate, eval_replicate_0.
    repeat split.
    + apply Forall_replicate. unfold is_digit. lia.
    + intros k _ Hk. now apply lookup_replicate_2.
  - intros i buf Hi (Hl & Hf & He & Hz).
    destruct (lookup_lt_is_Some_2 x i ltac:(lia)) as [xi Hxi].
    destruct (mul_inner_ok i xi buf Hxi Hl Hf)
      as ([buf' carry] & -> & Hl' & Hf' & Hc & He' & Hk').
    cbn [fst snd bind] in *.
    destruct (vec_at_lt buf' (i + length y) ltac:(lia)) as (r & Hr & ->).
    cbn [bind].
    assert (r = 0) as ->.
    { rewrite Hk' in Hr by lia. rewrite Hz in Hr by lia. congruence. }
    rewrite to_uint8_small by lia.
    rewrite vec_set_ok by lia.
    eexists. split; [reflexivity|].
    unfold mul_outer_inv. repeat split.
    + rewrite length_insert. lia.
    + apply Forall_insert; [assumption | unfold is_digit; lia].
    + rewrite (eval_insert _ _ _ _ Hr), (eval_take_S _ _ _ Hxi).
      rewrite firstn_all in He'. lia.
    + intros k Hk1 Hk2. rewrite list_lookup_insert_ne by lia.
      rewrite Hk' by lia. apply Hz; lia.
Qed.

End Multiplication.

(** The digits computed by [operator*] before the sign is settled. *)
Lemma mul_op_digits (a b : bigint) :
  Forall is_digit (digits a) -> Forall is_digit (digits b) ->
  exists buf,
    mul_op a b =
      Ok (removeLeadingZeros
            {| digits := buf;
               is_negative := negb (Bool.eqb (is_negative a) (is_negative b)) |}) /\
    length buf = (length (digits a) + length (digits b))%nat /\
    Forall is_digit buf /\
    eval buf = eval (digits a) * eval (digits b).
Proof.
  intros Ha Hb.
  destruct (mul_outer_ok (digits a) (digits b) Ha Hb)
    as (buf & Hrun & Hl & Hf & He & _).
  exists buf. unfold mul_op. rewrite Hrun. cbn [bind].
  rewrite firstn_all in He. auto.
Qed.

(** C5: on operands that satisfy the data-model invariants [operator*] returns
    a value, the value satisfies the invariants, it denotes the exact product,
    its magnitude is the product of the magnitudes, and it is negative exactly
    when one operand is negative and the product is not zero. *)
Theorem mul_op_exact (a b : bigint) :
  invariants a = true -> invariants b = true ->
  exists r,
    mul_op a b = Ok r /\
    invariants r = true /\
    value_of r = value_of a * value_of b /\
    eval (digits r) = eval (digits a) * eval (digits b) /\
    is_negative r =
      xorb (is_negative a) (is_negative b) && negb (value_of a * value_of b =? 0).
Proof.
  intros Ia Ib.
  destruct (invariants_digits a Ia) as [Ha Hna].
  destruct (invariants_digits b Ib) as [Hb Hnb].
  destruct (mul_op_digits a b Ha Hb) as (buf & -> & Hl & Hf & He).
  set (p := {| digits := buf;
               is_negative := negb (Bool.eqb (is_negative a) (is_negative b)) |}).
  assert (Hne : digits p <> []).
  { cbn [digits p]. destruct buf; [|congruence].
    destruct (digits a); [congruence | discriminate]. }
  pose proof (removeLeadingZeros_sign p Hf Hne) as Hs.
  pose proof (removeLeadingZeros_eval p) as Hv.
  cbn [digits is_negative p] in Hs, Hv. rewrite He in Hs, Hv.
  exists (removeLeadingZeros p).
  split; [reflexivity|].
  split; [apply removeLeadingZeros_invariants; assumption|].
  assert (Hval : value_of (removeLeadingZeros p) = value_of a * value_of b).
  { unfold value_of. rewrite Hs, Hv.
    destruct (is_negative a), (is_negative b); cbn [Bool.eqb negb andb];
      try lia;
      destruct (Z.eqb_spec (eval (digits a) * eval (digits b)) 0);
      cbn [negb]; lia. }
  split; [exact Hval|]. split; [exact Hv|].
  rewrite Hs.
  replace (value_of a * value_of b =? 0)
    with (eval (digits a) * eval (digits b) =? 0).
  - destruct (is_negative a), (is_negative b); reflexivity.
  - apply eq_iff_eq_true. rewrite !Z.eqb_eq. unfold value_of.
    destruct (is_negative a), (is_negative b); lia.
Qed.

Lemma mul_op_exact_witness :
  exists r,
    mul_op {| digits := [2; 1]; is_negative := true |}
           {| digits := [4; 3]; is_negative := false |} = Ok r /\
    invariants r = true /\
    value_of r = -12 * 34 /\
    eval (digits r) = 12 * 34 /\
    is_negative r = true.
Proof.
  exact (mul_op_exact {| digits := [2; 1]; is_negative := true |}
                      {| digits := [4; 3]; is_negative := false |}
                      eq_refl eq_refl).
Defined.

(** ** Normalization, further *)

Lemma pop_zeros_fixed (ds : list Z) :
  List.last ds 1 <> 0 \/ length ds = 1%nat ->
  pop_zeros (length ds) ds = ds.
Proof.
  destruct ds as [|x l _] using rev_ind; [reflexivity|]. intros H.
  rewrite pop_zeros_snoc.
  destruct (negb (length l =? 0)%nat && (x =? 0)) eqn:E; [|reflexivity].
  apply andb_true_iff in E as [El Ex].
  apply negb_true_iff, Nat.eqb_neq in El. apply Z.eqb_eq in Ex.
  rewrite List.last_last, length_app in H. cbn [length] in H. lia.
Qed.

Lemma removeLeadingZeros_fixed (a : bigint) :
  invariants a = true -> removeLeadingZeros a = a.
Proof.
  intros Ia. destruct (invariants_elim a Ia) as (Hn & Hd & Ht & Hz).
  unfold removeLeadingZeros. rewrite (pop_zeros_fixed _ Ht).
  destruct a as [ds neg]. cbn [digits is_negative] in *. f_equal.
  destruct ds as [|d [|d' ds]]; [congruence| |reflexivity].
  cbn [length Nat.eqb nth andb].
  destruct (Z.eqb_spec d 0) as [->|_]; [|reflexivity].
  destruct neg; [|reflexivity]. now destruct Hz.
Qed.

(** X1: [removeLeadingZeros] turns every non-empty sequence of decimal digits
    into a value that satisfies the four invariants, keeps the magnitude, and
    keeps the sign flag unless the magnitude is zero. *)
Theorem removeLeadingZeros_normalizes (a : bigint) :
  Forall is_digit (digits a) -> digits a <> [] ->
  invariants (removeLeadingZeros a) = true /\
  eval (digits (removeLeadingZeros a)) = eval (digits a) /\
  is_negative (removeLeadingZeros a)
    = is_negative a && negb (eval (digits a) =? 0) /\
  (length (digits (removeLeadingZeros a)) <= length (digits a))%nat.
Proof.
  intros Hd Hn.
  split; [now apply removeLeadingZeros_invariants|].
  split; [apply removeLeadingZeros_eval|].
  split; [now apply removeLeadingZeros_sign|].
  unfold removeLeadingZeros. cbn [digits]. clear Hd Hn.
  induction (digits a) as [|x l IH] using rev_ind; [reflexivity|].
  rewrite pop_zeros_snoc, length_app. cbn [length].
  destruct (negb (length l =? 0)%nat && (x =? 0)); [lia|].
  rewrite length_app. cbn [length]. lia.
Qed.

Lemma removeLeadingZeros_normalizes_witness :
  let a := {| digits := [7; 0; 0; 0]; is_negative := true |} in
  invariants (removeLeadingZeros a) = true /\
  eval (digits (removeLeadingZeros a)) = 7 /\
  is_negative (removeLeadingZeros a) = true /\
  (length (digits (removeLeadingZeros a)) <= 4)%nat.
Proof.
  apply (removeLeadingZeros_normalizes
           {| digits := [7; 0; 0; 0]; is_negative := true |}).
  - repeat constructor; unfold is_digit; lia.
  - discriminate.
Defined.

(** X2: [removeLeadingZeros] is idempotent on every value, whatever its digit
    vector holds. *)
Theorem removeLeadingZeros_idempotent (a : bigint) :
  removeLeadingZeros (removeLeadingZeros a) = removeLeadingZeros a.
Proof.
  unfold removeLeadingZeros. cbn [digits is_negative].
  rewrite (pop_zeros_fixed _ (pop_zeros_top (digits a))).
  f_equal.
  destruct ((length (pop_zeros (length (digits a)) (digits a)) =? 1)%nat
            && (nth 0 (pop_zeros (length (digits a)) (digits a)) 0 =? 0));
    reflexivity.
Qed.

(** ** Uniqueness of the normalized representation *)

Lemma eval_inj (x : list Z) :
  forall y : list Z,
    Forall is_digit x -> Forall is_digit y -> length x = length y ->
    eval x = eval y -> x = y.
Proof.
  induction x as [|d x IH]; intros [|e y] Hx Hy Hl He; try discriminate;
    [reflexivity|].
  apply Forall_cons in Hx as [Hd Hx]. apply Forall_cons in Hy as [He' Hy].
  unfold is_digit in Hd, He'. cbn [eval] in He. cbn [length] in Hl.
  assert (d = e) by lia. subst e.
  f_equal. apply IH; auto; lia.
Qed.

Lemma invariants_value_inj (a b : bigint) :
  invariants a = true -> invariants b = true ->
  value_of a = value_of b -> a = b.
Proof.
  intros Ia Ib Hv.
  destruct (invariants_elim a Ia) as (Hna & Hda & _ & Hza).
  destruct (invariants_elim b Ib) as (Hnb & Hdb & _ & Hzb).
  pose proof (eval_bounds _ Hda) as Ba.
  pose proof (eval_bounds _ Hdb) as Bb.
  assert (Hs : is_negative a = is_negative b).
  { unfold value_of in Hv.
    destruct (is_negative a), (is_negative b); try reflexivity.
    - specialize (Hza eq_refl). lia.
    - specialize (Hzb eq_refl). lia. }
  assert (He : eval (digits a) = eval (digits b)).
  { unfold value_of in Hv. rewrite Hs in Hv. destruct (is_negative b); lia. }
  assert (Hl : length (digits a) = length (digits b)).
  { destruct (lt_eq_lt_dec (length (digits a)) (length (digits b)))
      as [[Hlt|Heq]|Hgt]; [|assumption|].
    - pose proof (eval_length_lt a b Ia Ib Hlt). lia.
    - pose proof (eval_length_lt b a Ib Ia Hgt). lia. }
  destruct a as [da sa], b as [db sb]. cbn [digits is_negative] in *.
  f_equal; [|assumption]. now apply eval_inj.
Qed.

Lemma eq_op_value (a b : bigint) :
  invariants a = true -> invariants b = true ->
  eq_op a b = (value_of a =? value_of b).
Proof.
  intros Ia Ib. apply eq_iff_eq_true. rewrite eq_op_eq, Z.eqb_eq. split.
  - now intros ->.
  - now apply invariants_value_inj.
Qed.

(** X3: two values that satisfy the invariants and denote the same integer
    are the same value, so that on such values [operator==] is the equality of
    the integers and [operator!=] its negation; [removeLeadingZeros] leaves
    such a value as it is. *)
Theorem eq_op_integer_equality (a b : bigint) :
  invariants a = true -> invariants b = true ->
  (value_of a = value_of b -> a = b) /\
  eq_op a b = (value_of a =? value_of b) /\
  ne_op a b = negb (value_of a =? value_of b) /\
  removeLeadingZeros a = a.
Proof.
  intros Ia Ib.
  pose proof (eq_op_value a b Ia Ib) as H.
  split; [now apply invariants_value_inj|]. split; [exact H|].
  split; [|now apply removeLeadingZeros_fixed].
  unfold ne_op. now rewrite H.
Qed.

Lemma eq_op_integer_equality_witness :
  let a := {| digits := [2; 4]; is_negative := true |} in
  let b := {| digits := [2; 4]; is_negative := false |} in
  (value_of a = value_of b -> a = b) /\
  eq_op a b = false /\ ne_op a b = true /\
  removeLeadingZeros a = a.
Proof.
  exact (eq_op_integer_equality
           {| digits := [2; 4]; is_negative := true |}
           {| digits := [2; 4]; is_negative := false |} eq_refl eq_refl).
Defined.

(** ** The comparison operators, further *)

(** X4: on operands that satisfy the invariants, [operator<] is the order of
    the integers, unless both operands are negative and their digit counts
    differ. *)
Theorem lt_op_integer_order (a b : bigint) :
  invariants a = true -> invariants b = true ->
  (is_negative a = true -> is_negative b = true ->
   length (digits a) = length (digits b)) ->
  lt_op a b = Ok (value_of a <? value_of b).
Proof. apply lt_op_correct. Qed.

Lemma lt_op_integer_order_witness :
  lt_op {| digits := [3; 2; 1]; is_negative := true |}
        {| digits := [7; 5; 1]; is_negative := true |} = Ok (-123 <? -157).
Proof.
  exact (lt_op_integer_order
           {| digits := [3; 2; 1]; is_negative := true |}
           {| digits := [7; 5; 1]; is_negative := true |}
           eq_refl eq_refl (fun _ _ => eq_refl)).
Defined.

(** X5: for two operands with the same sign flag and different digit counts
    [operator<] answers by the digit counts alone: the operand with fewer
    digits is the smaller one, for negative operands as for non-negative
    ones. *)
Theorem lt_op_digit_count (a b : bigint) :
  is_negative a = is_negative b ->
  length (digits a) <> length (digits b) ->
  lt_op a b = Ok (length (digits a) <? length (digits b))%nat.
Proof. apply lt_op_by_size. Qed.

Lemma lt_op_digit_count_witness :
  lt_op {| digits := [9]; is_negative := true |}
        {| digits := [0; 0; 1]; is_negative := true |} = Ok true.
Proof.
  apply (lt_op_digit_count
           {| digits := [9]; is_negative := true |}
           {| digits := [0; 0; 1]; is_negative := true |});
    [reflexivity | cbn; lia].
Defined.

(** The scan of two negative operands is the scan of two non-negative ones
    with the operands exchanged. *)
Lemma lt_scan_neg_swap (x y : list Z) (i : nat) :
  lt_scan_neg i x y = lt_scan_nonneg i y x.
Proof.
  induction i as [|i IH]; [reflexivity|]. cbn [lt_scan_neg lt_scan_nonneg].
  unfold vec_at. destruct (x !! i) as [xi|], (y !! i) as [yi|]; cbn [bind];
    try reflexivity.
  rewrite !Z.gtb_ltb. destruct (yi <? xi); [reflexivity|].
  destruct (xi <? yi); [reflexivity | exact IH].
Qed.

(** The scan never leaves the vectors, answers the opposite when the operands
    are exchanged, and falls through exactly on equal digits. *)
Lemma lt_scan_nonneg_swap (x y : list Z) (i : nat) :
  (i <= length x)%nat -> (i <= length y)%nat ->
  exists r,
    lt_scan_nonneg i x y = Ok r /\
    lt_scan_nonneg i y x = Ok (option_map negb r) /\
    (r = None <-> take i x = take i y).
Proof.
  induction i as [|i IH]; intros Hx Hy.
  - exists None. cbn. tauto.
  - cbn [lt_scan_nonneg].
    destruct (vec_at_lt x i ltac:(lia)) as (xi & Hxi & ->).
    destruct (vec_at_lt y i ltac:(lia)) as (yi & Hyi & ->). cbn [bind].
    rewrite (take_S_r _ _ _ Hxi), (take_S_r _ _ _ Hyi), !Z.gtb_ltb.
    destruct (Z.ltb_spec xi yi) as [Hlt|Hge].
    + exists (Some true). destruct (Z.ltb_spec yi xi); [lia|].
      repeat split; try discriminate.
      intros E. apply app_inj_tail in E as [_ E]. lia.
    + destruct (Z.ltb_spec yi xi) as [Hgt|Hle].
      * exists (Some false). repeat split; try discriminate.
        intros E. apply app_inj_tail in E as [_ E]. lia.
      * assert (xi = yi) as -> by lia.
        destruct (IH ltac:(lia) ltac:(lia)) as (r & Hr & Hr' & Hnone).
        exists r. repeat split; try assumption.
        -- intros E. apply Hnone in E. now rewrite E.
        -- intros E. apply app_inj_tail in E as [E _]. now apply Hnone.
Qed.

Lemma lt_scan_nonneg_trans (x y z : list Z) (i : nat) :
  (i <= length x)%nat -> (i <= length y)%nat -> (i <= length z)%nat ->
  lt_scan_nonneg i x y = Ok (Some true) ->
  lt_scan_nonneg i y z = Ok (Some true) ->
  lt_scan_nonneg i x z = Ok (Some true).
Proof.
  induction i as [|i IH]; intros Hx Hy Hz; [discriminate|].
  cbn [lt_scan_nonneg].
  destruct (vec_at_lt x i ltac:(lia)) as (xi & _ & ->).
  destruct (vec_at_lt y i ltac:(lia)) as (yi & _ & ->).
  destruct (vec_at_lt z i ltac:(lia)) as (zi & _ & ->). cbn [bind].
  rewrite !Z.gtb_ltb.
  destruct (Z.ltb_spec xi yi), (Z.ltb_spec yi xi), (Z.ltb_spec yi zi),
    (Z.ltb_spec zi yi), (Z.ltb_spec xi zi), (Z.ltb_spec zi xi);
    try lia; try discriminate; try reflexivity.
  apply IH; lia.
Qed.

(** When [operator<] answers true. *)
Lemma lt_op_true_iff (a b : bigint) :
  lt_op a b = Ok true <->
  (is_negative a = true /\ is_negative b = false) \/
  (is_negative a = is_negative b /\
   (length (digits a) < length (digits b))%nat) \/
  (is_negative a = is_negative b /\
   length (digits a) = length (digits b) /\
   (if is_negative a
    then lt_scan_nonneg (length (digits a)) (digits b) (digits a)
    else lt_scan_nonneg (length (digits a)) (digits a) (digits b))
   = Ok (Some true)).
Proof.
  unfold lt_op. rewrite lt_scan_neg_swap.
  destruct (is_negative a), (is_negative b); cbn [negb andb].
  - destruct (Nat.ltb_spec (length (digits a)) (length (digits b))).
    { split; [intros _; right; left; auto | reflexivity]. }
    destruct (Nat.ltb_spec (length (digits b)) (length (digits a))).
    { split; [discriminate|].
      intros [[_ H1]|[[_ H1]|(_ & H1 & _)]]; [discriminate | lia | lia]. }
    destruct (lt_scan_nonneg _ (digits b) (digits a)) as [[[]|]|e]; cbn [bind];
      split; try discriminate; try reflexivity;
      try (intros _; right; right; repeat split; auto; lia);
      intros [[_ H1]|[[_ H1]|(_ & _ & H1)]]; try discriminate; lia.
  - split; [intros _; left; auto | reflexivity].
  - split; [discriminate|].
    intros [[H1 _]|[[H1 _]|(H1 & _)]]; discriminate.
  - destruct (Nat.ltb_spec (length (digits a)) (length (digits b))).
    { split; [intros _; right; left; auto | reflexivity]. }
    destruct (Nat.ltb_spec (length (digits b)) (length (digits a))).
    { split; [discriminate|].
      intros [[H1 _]|[[_ H1]|(_ & H1 & _)]]; [discriminate | lia | lia]. }
    destruct (lt_scan_nonneg _ (digits a) (digits b)) as [[[]|]|e]; cbn [bind];
      split; try discriminate; try reflexivity;
      try (intros _; right; right; repeat split; auto; lia);
      intros [[H1 _]|[[_ H1]|(_ & _ & H1)]]; try discriminate; lia.
Qed.

Lemma lt_op_same_shape (a b : bigint) :
  is_negative a = is_negative b ->
  length (digits a) = length (digits b) ->
  lt_op a b =
  (r <- (if is_negative a
         then lt_scan_nonneg (length (digits a)) (digits b) (digits a)
         else lt_scan_nonneg (length (digits a)) (digits a) (digits b)) ;;
   Ok (match r with Some c => c | None => false end)).
Proof.
  intros Hs Hl. unfold lt_op. rewrite lt_scan_neg_swap, <- Hs, <- Hl.
  rewrite andb_negb_r, andb_negb_l, Nat.ltb_irrefl.
  destruct (is_negative a); cbn [negb];
    destruct (lt_scan_nonneg _ _ _) as [[c|]|e]; reflexivity.
Qed.

Lemma lt_op_exchange (a b : bigint) :
  exists l g,
    lt_op a b = Ok l /\ lt_op b a = Ok g /\
    ((l = true /\ g = false /\ eq_op a b = false) \/
     (l = false /\ g = true /\ eq_op a b = false) \/
     (l = false /\ g = false /\ eq_op a b = true)).
Proof.
  destruct (Bool.bool_dec (is_negative a) (is_negative b)) as [Hs|Hs].
  - destruct (lt_eq_lt_dec (length (digits a)) (length (digits b)))
      as [[Hlt|Heq]|Hgt].
    + exists true, false.
      rewrite (lt_op_by_size a b), (lt_op_by_size b a) by (auto; lia).
      unfold eq_op. rewrite digits_eqb_length, andb_false_r by lia.
      repeat split; [f_equal; apply Nat.ltb_lt; lia
                    | f_equal; apply Nat.ltb_ge; lia | auto].
    + rewrite (lt_op_same_shape a b), (lt_op_same_shape b a) by auto.
      rewrite <- Hs, <- Heq.
      assert (He : eq_op a b = true <-> digits a = digits b).
      { unfold eq_op. rewrite Hs, eqb_reflx. cbn [andb]. apply digits_eqb_eq. }
      assert (Hswap : forall x y : list Z,
                 length x = length (digits a) -> length y = length (digits a) ->
                 exists r,
                   lt_scan_nonneg (length (digits a)) x y = Ok r /\
                   lt_scan_nonneg (length (digits a)) y x = Ok (option_map negb r) /\
                   (r = None <-> x = y)).
      { intros x y Hx Hy.
        destruct (lt_scan_nonneg_swap x y (length (digits a)))
          as (r & H1 & H2 & H3); [lia | lia |].
        exists r. rewrite <- Hx in H3 at 1. rewrite <- Hy in H3.
        rewrite !firstn_all in H3. auto. }
      destruct (is_negative a).
      * destruct (Hswap (digits b) (digits a)) as (r & -> & -> & Hr); auto.
        cbn [bind]. destruct r as [[]|]; cbn [option_map negb].
        -- exists true, false. repeat split. left. repeat split.
           apply not_true_is_false. intros E.
           apply He in E. symmetry in E. apply Hr in E. discriminate.
        -- exists false, true. repeat split. right. left. repeat split.
           apply not_true_is_false. intros E.
           apply He in E. symmetry in E. apply Hr in E. discriminate.
        -- exists false, false. repeat split. right. right. repeat split.
           apply He. symmetry. now apply Hr.
      * destruct (Hswap (digits a) (digits b)) as (r & -> & -> & Hr); auto.
        cbn [bind]. destruct r as [[]|]; cbn [option_map negb].
        -- exists true, false. repeat split. left. repeat split.
           apply not_true_is_false. intros E.
           apply He, Hr in E. discriminate.
        -- exists false, true. repeat split. right. left. repeat split.
           apply not_true_is_false. intros E.
           apply He, Hr in E. discriminate.
        -- exists false, false. repeat split. right. right. repeat split.
           apply He. now apply Hr.
    + exists false, true.
      rewrite (lt_op_by_size a b), (lt_op_by_size b a) by (auto; lia).
      unfold eq_op. rewrite digits_eqb_length, andb_false_r by lia.
      repeat split; [f_equal; apply Nat.ltb_ge; lia
                    | f_equal; apply Nat.ltb_lt; lia | auto].
  - assert (He : eq_op a b = false).
    { unfold eq_op. destruct (is_negative a), (is_negative b);
        try reflexivity; now destruct Hs. }
    unfold lt_op. rewrite He.
    destruct (is_negative a), (is_negative b); try (now destruct Hs);
      cbn [negb andb].
    + exists true, false. repeat split. left. auto.
    + exists false, true. repeat split. right. left. auto.
Qed.

(** X6: the comparison operators never leave the digit vectors, on any two
    values, and exactly one of [a < b], [b < a] and [a == b] holds; [a > b] is
    [b < a], [a <= b] is the negation of [b < a], and [a >= b] the negation of
    [a < b]. *)
Theorem comparison_trichotomy (a b : bigint) :
  exists l g,
    lt_op a b = Ok l /\ lt_op b a = Ok g /\
    gt_op a b = Ok g /\ le_op a b = Ok (negb g) /\ ge_op a b = Ok (negb l) /\
    ne_op a b = (l || g) /\
    ((l = true /\ g = false /\ eq_op a b = false) \/
     (l = false /\ g = true /\ eq_op a b = false) \/
     (l = false /\ g = false /\ eq_op a b = true)).
Proof.
  destruct (lt_op_exchange a b) as (l & g & Hl & Hg & H).
  exists l, g. unfold gt_op, le_op, ge_op, ne_op. rewrite Hl, Hg. cbn [bind].
  destruct H as [(-> & -> & ->)|[(-> & -> & ->)|(-> & -> & ->)]];
    cbn [bind negb orb]; repeat (split; [reflexivity|]).
  - left. auto.
  - right. left. auto.
  - right. right. auto.
Qed.

(** X7: [operator<] is transitive on all values. *)
Theorem lt_op_transitive (a b c : bigint) :
  lt_op a b = Ok true -> lt_op b c = Ok true -> lt_op a c = Ok true.
Proof.
  rewrite !lt_op_true_iff.
  intros [[Ha Hb]|[[Hs Hl]|(Hs & Hl & Hscan)]]
         [[Hb' Hc]|[[Hs' Hl']|(Hs' & Hl' & Hscan')]];
    try (exfalso; congruence);
    try (left; split; congruence);
    try (right; left; split; [congruence | lia]).
  right. right. repeat split; [congruence | lia |].
  rewrite <- Hs, <- Hl in Hscan'.
  destruct (is_negative a).
  - apply (lt_scan_nonneg_trans (digits c) (digits b) (digits a));
      auto; lia.
  - apply (lt_scan_nonneg_trans (digits a) (digits b) (digits c));
      auto; lia.
Qed.

Lemma lt_op_transitive_witness :
  lt_op {| digits := [1]; is_negative := true |}
        {| digits := [5; 2]; is_negative := false |} = Ok true.
Proof.
  apply (lt_op_transitive
           {| digits := [1]; is_negative := true |}
           {| digits := [3]; is_negative := false |}
           {| digits := [5; 2]; is_negative := false |});
    reflexivity.
Defined.

(** X8: on operands that satisfy the invariants, and unless both are negative
    with different digit counts, [operator<=], [operator>] and [operator>=]
    are the orders of the integers. *)
Theorem derived_comparisons_integer_order (a b : bigint) :
  invariants a = true -> invariants b = true ->
  (is_negative a = true -> is_negative b = true ->
   length (digits a) = length (digits b)) ->
  le_op a b = Ok (value_of a <=? value_of b) /\
  gt_op a b = Ok (value_of a >? value_of b) /\
  ge_op a b = Ok (value_of a >=? value_of b).
Proof.
  intros Ia Ib Hneg.
  pose proof (lt_op_correct a b Ia Ib Hneg) as Hl.
  pose proof (eq_op_value a b Ia Ib) as He.
  unfold gt_op, le_op, ge_op. rewrite Hl, He. cbn [bind].
  rewrite Z.gtb_ltb, Z.geb_leb.
  destruct (Z.ltb_spec (value_of a) (value_of b)),
    (Z.eqb_spec (value_of a) (value_of b)),
    (Z.leb_spec (value_of a) (value_of b)),
    (Z.ltb_spec (value_of b) (value_of a)),
    (Z.leb_spec (value_of b) (value_of a));
    try lia; cbn [bind negb]; auto.
Qed.

Lemma derived_comparisons_integer_order_witness :
  let a := {| digits := [3; 2; 1]; is_negative := false |} in
  let b := {| digits := [6; 5; 4]; is_negative := false |} in
  le_op a b = Ok true /\ gt_op a b = Ok false /\ ge_op a b = Ok false.
Proof.
  exact (derived_comparisons_integer_order
           {| digits := [3; 2; 1]; is_negative := false |}
           {| digits := [6; 5; 4]; is_negative := false |}
           eq_refl eq_refl (fun _ _ => eq_refl)).
Defined.

(** ** The bounds of the digit loops, on arbitrary vectors *)

Lemma subtractDigits_total (res larger smaller : bigint) :
  (length (digits smaller) <= length (digits larger))%nat ->
  exists r, subtractDigits res larger smaller = Ok r.
Proof.
  intros Hlen. unfold subtractDigits.
  match goal with
  | |- context [for_range ?lo ?hi ?body ?s] =>
      destruct (for_range_inv (fun _ _ => True) body lo hi s)
        as ([ds1 c1] & -> & _); [lia | exact I | |]
  end.
  { intros i [ds borrow] Hi _.
    destruct (vec_at_lt (digits larger) i ltac:(lia)) as (l & _ & ->).
    destruct (vec_at_lt (digits smaller) i ltac:(lia)) as (s & _ & ->).
    cbn [bind]. destruct (l - s - borrow <? 0); eauto. }
  cbn [bind].
  match goal with
  | |- context [for_range ?lo ?hi ?body ?s] =>
      destruct (for_range_inv (fun _ _ => True) body lo hi s)
        as ([ds2 c2] & -> & _); [lia | exact I | |]
  end.
  { intros i [ds borrow] Hi _.
    destruct (vec_at_lt (digits larger) i ltac:(lia)) as (l & _ & ->).
    cbn [bind]. destruct (l - borrow <? 0); eauto. }
  cbn [bind]. eauto.
Qed.

Lemma addDigits_total (larger smaller : list Z) :
  (length smaller <= length larger)%nat ->
  exists r, addDigits larger smaller = Ok r.
Proof.
  intros Hlen. unfold addDigits.
  match goal with
  | |- context [for_range ?lo ?hi ?body ?s] =>
      destruct (for_range_inv (fun _ _ => True) body lo hi s)
        as ([ds1 c1] & -> & _); [lia | exact I | |]
  end.
  { intros i [ds carry] Hi _.
    destruct (vec_at_lt larger i ltac:(lia)) as (l & _ & ->).
    destruct (vec_at_lt smaller i ltac:(lia)) as (s & _ & ->).
    cbn [bind]. eauto. }
  cbn [bind].
  match goal with
  | |- context [for_range ?lo ?hi ?body ?s] =>
      destruct (for_range_inv (fun _ _ => True) body lo hi s)
        as ([ds2 c2] & -> & _); [lia | exact I | |]
  end.
  { intros i [ds carry] Hi _.
    destruct (vec_at_lt larger i ltac:(lia)) as (l & _ & ->).
    cbn [bind]. eauto. }
  cbn [bind]. eauto.
Qed.

Lemma addDigits_short (larger smaller : list Z) :
  (length larger < length smaller)%nat ->
  addDigits larger smaller = Err index_out_of_range.
Proof.
  intros Hlen. unfold addDigits, for_range.
  rewrite (for_count_fails _ index_out_of_range (length larger));
    [reflexivity | lia | |].
  - intros i [ds carry] Hi.
    destruct (vec_at_lt larger i ltac:(lia)) as (l & _ & ->).
    destruct (vec_at_lt smaller i ltac:(lia)) as (s & _ & ->).
    cbn [bind]. eauto.
  - intros [ds carry]. now rewrite vec_at_ge by lia.
Qed.

Lemma order_by_size_total (x y : list Z) :
  exists r,
    (let '(largerDigits, smallerDigits) := order_by_size x y in
     addDigits largerDigits smallerDigits) = Ok r.
Proof.
  unfold order_by_size.
  destruct (Nat.leb_spec (length y) (length x));
    apply addDigits_total; lia.
Qed.

(** X9: [subtractDigits] stays inside the digit vectors exactly when [larger]
    has at least as many digits as [smaller], whatever the vectors hold; with
    fewer digits it reads past the end of [larger]. *)
Theorem subtractDigits_bounds (res larger smaller : bigint) :
  is_ok (subtractDigits res larger smaller)
    = (length (digits smaller) <=? length (digits larger))%nat /\
  (subtractDigits res larger smaller = Err index_out_of_range <->
   (length (digits larger) < length (digits smaller))%nat).
Proof.
  destruct (Nat.leb_spec (length (digits smaller)) (length (digits larger)))
    as [Hle|Hlt].
  - destruct (subtractDigits_total res larger smaller Hle) as [r ->].
    split; [reflexivity|]. split; [discriminate | lia].
  - rewrite (subtractDigits_short res larger smaller Hlt).
    split; [reflexivity|]. split; auto.
Qed.

(** X10: [addDigits] stays inside the digit vectors exactly when
    [largerDigits] has at least as many digits as [smallerDigits], whatever
    the vectors hold. *)
Theorem addDigits_bounds (largerDigits smallerDigits : list Z) :
  is_ok (addDigits largerDigits smallerDigits)
    = (length smallerDigits <=? length largerDigits)%nat /\
  (addDigits largerDigits smallerDigits = Err index_out_of_range <->
   (length largerDigits < length smallerDigits)%nat).
Proof.
  destruct (Nat.leb_spec (length smallerDigits) (length largerDigits))
    as [Hle|Hlt].
  - destruct (addDigits_total largerDigits smallerDigits Hle) as [r ->].
    split; [reflexivity|]. split; [discriminate | lia].
  - rewrite (addDigits_short largerDigits smallerDigits Hlt).
    split; [reflexivity|]. split; auto.
Qed.

(** X11: [subtractDigits] with an empty result, on decimal digits, for a
    [larger] that has at least as many digits as [smaller] and is at least as
    large: the result satisfies the invariants, its magnitude is the
    difference, and it keeps the sign chosen by the caller unless the
    difference is zero. *)
Theorem subtractDigits_difference (neg : bool) (larger smaller : bigint) :
  Forall is_digit (digits larger) -> Forall is_digit (digits smaller) ->
  (length (digits smaller) <= length (digits larger))%nat ->
  digits larger <> [] ->
  eval (digits smaller) <= eval (digits larger) ->
  exists r,
    subtractDigits {| digits := []; is_negative := neg |} larger smaller = Ok r /\
    invariants r = true /\
    eval (digits r) = eval (digits larger) - eval (digits smaller) /\
    is_negative r =
      neg && negb (eval (digits larger) - eval (digits smaller) =? 0).
Proof. apply subtractDigits_ok. Qed.

Lemma subtractDigits_difference_witness :
  exists r,
    subtractDigits {| digits := []; is_negative := true |}
      {| digits := [0; 0; 0; 1]; is_negative := false |}
      {| digits := [1]; is_negative := false |} = Ok r /\
    invariants r = true /\
    eval (digits r) = 1000 - 1 /\
    is_negative r = true.
Proof.
  apply (subtractDigits_difference true
           {| digits := [0; 0; 0; 1]; is_negative := false |}
           {| digits := [1]; is_negative := false |}).
  - repeat constructor; unfold is_digit; lia.
  - repeat constructor; unfold is_digit; lia.
  - cbn. lia.
  - discriminate.
  - cbn. lia.
Defined.

(** X12: [addDigits] on decimal digits, for a non-empty [largerDigits] with at
    least as many digits as [smallerDigits]: the result is non-negative,
    satisfies the invariants, and its magnitude is the sum. *)
Theorem addDigits_sum (largerDigits smallerDigits : list Z) :
  Forall is_digit largerDigits -> Forall is_digit smallerDigits ->
  (length smallerDigits <= length largerDigits)%nat -> largerDigits <> [] ->
  exists r,
    addDigits largerDigits smallerDigits = Ok r /\
    is_negative r = false /\
    eval (digits r) = eval largerDigits + eval smallerDigits /\
    invariants r = true.
Proof. apply addDigits_ok. Qed.

Lemma addDigits_sum_witness :
  exists r,
    addDigits [9; 9; 9] [1] = Ok r /\
    is_negative r = false /\
    eval (digits r) = 999 + 1 /\
    invariants r = true.
Proof.
  apply (addDigits_sum [9; 9; 9] [1]).
  - repeat constructor; unfold is_digit; lia.
  - repeat constructor; unfold is_digit; lia.
  - cbn. lia.
  - discriminate.
Defined.

(** ** Subtraction and addition, further *)

(** X13: [operator-] returns the exact difference, as a value that satisfies
    the invariants, for all operands that satisfy them, unless both are
    negative with different digit counts. *)
Theorem sub_op_exact (a b : bigint) :
  invariants a = true -> invariants b = true ->
  (is_negative a = true -> is_negative b = true ->
   length (digits a) = length (digits b)) ->
  exists r,
    sub_op a b = Ok r /\ invariants r = true /\
    value_of r = value_of a - value_of b.
Proof. apply sub_op_exact_unless_negative_sizes. Qed.

Lemma sub_op_exact_witness :
  exists r,
    sub_op {| digits := [5; 1]; is_negative := true |}
           {| digits := [0; 4]; is_negative := true |} = Ok r /\
    invariants r = true /\ value_of r = -15 - -40.
Proof.
  exact (sub_op_exact {| digits := [5; 1]; is_negative := true |}
                      {| digits := [0; 4]; is_negative := true |}
                      eq_refl eq_refl (fun _ _ => eq_refl)).
Defined.

Lemma sub_op_failure (a b : bigint) :
  (sub_op a b = Err index_out_of_range <->
   is_negative a = true /\ is_negative b = true /\
   length (digits a) <> length (digits b)) /\
  is_ok (sub_op a b)
    = negb (is_negative a && is_negative b
            && negb (length (digits a) =? length (digits b))%nat).
Proof.
  destruct (is_negative a) eqn:Sa, (is_negative b) eqn:Sb; cbn [andb negb].
  - destruct (Nat.eqb_spec (length (digits a)) (length (digits b))) as [Hl|Hl];
      cbn [negb].
    + assert (Hok : exists r, sub_op a b = Ok r).
      { unfold sub_op, le_op. rewrite Sa, Sb. cbn [Bool.eqb].
        destruct (lt_op_exchange a b) as (l & _ & -> & _). cbn [bind].
        destruct l; cbn [bind];
          [apply subtractDigits_total; lia|].
        destruct (eq_op a b); apply subtractDigits_total; lia. }
      destruct Hok as [r ->]. split; [|reflexivity].
      split; [discriminate | tauto].
    + rewrite (sub_op_negative_sizes a b Sa Sb Hl). split; [|reflexivity].
      split; auto.
  - assert (Hok : exists r, sub_op a b = Ok r).
    { unfold sub_op. rewrite Sa, Sb. cbn [Bool.eqb].
      destruct (order_by_size_total (digits a) (digits b)) as [r Hr].
      destruct (order_by_size _ _). rewrite Hr. cbn [bind]. eauto. }
    destruct Hok as [r ->]. split; [|reflexivity].
    split; [discriminate | intros (_ & H & _); discriminate].
  - assert (Hok : exists r, sub_op a b = Ok r).
    { unfold sub_op. rewrite Sa, Sb. cbn [Bool.eqb].
      destruct (order_by_size_total (digits a) (digits b)) as [r Hr].
      destruct (order_by_size _ _). rewrite Hr. cbn [bind]. eauto. }
    destruct Hok as [r ->]. split; [|reflexivity].
    split; [discriminate | intros (H & _); discriminate].
  - assert (Hok : exists r, sub_op a b = Ok r).
    { unfold sub_op, ge_op. rewrite Sa, Sb. cbn [Bool.eqb].
      destruct (lt_op_exchange a b) as (l & g & Hl & Hg & Hx). rewrite Hl.
      cbn [bind].
      assert (Hsz : l = true -> (length (digits a) <= length (digits b))%nat).
      { intros ->. apply lt_op_true_iff in Hl.
        destruct Hl as [[H _]|[[_ H]|(_ & H & _)]]; [congruence | lia | lia]. }
      assert (Hsz' : l = false -> (length (digits b) <= length (digits a))%nat).
      { intros ->.
        destruct (Nat.le_gt_cases (length (digits b)) (length (digits a)));
          [assumption|].
        rewrite lt_op_by_size in Hl by (congruence || lia).
        injection Hl as Hl. apply Nat.ltb_ge in Hl. lia. }
      destruct l; cbn [negb]; apply subtractDigits_total; auto. }
    destruct Hok as [r ->]. split; [|reflexivity].
    split; [discriminate | intros (H & _); discriminate].
Qed.

(** X14: on any two values [operator-] ends in an out-of-range read exactly
    when both operands are negative and their digit counts differ; in every
    other case it returns a value. *)
Theorem sub_op_fails_iff (a b : bigint) :
  (sub_op a b = Err index_out_of_range <->
   is_negative a = true /\ is_negative b = true /\
   length (digits a) <> length (digits b)) /\
  is_ok (sub_op a b)
    = negb (is_negative a && is_negative b
            && negb (length (digits a) =? length (digits b))%nat).
Proof. apply sub_op_failure. Qed.

(** X15: [operator+] returns the exact sum, as a value that satisfies the
    invariants, for all operands that satisfy them, unless the left operand is
    negative and the right one non-negative with a different digit count. *)
Theorem add_op_exact (a b : bigint) :
  invariants a = true -> invariants b = true ->
  (is_negative a = true -> is_negative b = false ->
   length (digits a) = length (digits b)) ->
  exists r,
    add_op a b = Ok r /\ invariants r = true /\
    value_of r = value_of a + value_of b.
Proof. apply add_op_exact_unless_negative_sizes. Qed.

Lemma add_op_exact_witness :
  exists r,
    add_op {| digits := [5; 1]; is_negative := true |}
           {| digits := [0; 4]; is_negative := false |} = Ok r /\
    invariants r = true /\ value_of r = -15 + 40.
Proof.
  exact (add_op_exact {| digits := [5; 1]; is_negative := true |}
                      {| digits := [0; 4]; is_negative := false |}
                      eq_refl eq_refl (fun _ _ => eq_refl)).
Defined.

(** X16: on any two values [operator+] ends in an out-of-range read exactly
    when the left operand is negative, the right one is not, and their digit
    counts differ; in every other case it returns a value. *)
Theorem add_op_fails_iff (a b : bigint) :
  (add_op a b = Err index_out_of_range <->
   is_negative a = true /\ is_negative b = false /\
   length (digits a) <> length (digits b)) /\
  is_ok (add_op a b)
    = negb (is_negative a && negb (is_negative b)
            && negb (length (digits a) =? length (digits b))%nat).
Proof.
  destruct (Bool.bool_dec (is_negative a) (is_negative b)) as [Hs|Hs].
  - assert (Hok : exists r, add_op a b = Ok r).
    { unfold add_op. rewrite Hs, eqb_reflx.
      destruct (order_by_size_total (digits a) (digits b)) as [r Hr].
      destruct (order_by_size _ _). rewrite Hr. cbn [bind]. eauto. }
    destruct Hok as [r ->]. rewrite Hs.
    split; [split; [discriminate | intros (H1 & H2 & _); congruence]|].
    now rewrite andb_negb_r.
  - assert (Hadd : add_op a b = sub_op a (neg_op b)).
    { unfold add_op. destruct (is_negative a), (is_negative b);
        try reflexivity; now destruct Hs. }
    rewrite Hadd.
    destruct (sub_op_failure a (neg_op b)) as [Hiff Hok].
    rewrite Hiff, Hok. cbn [neg_op digits is_negative].
    destruct (is_negative a), (is_negative b); try (now destruct Hs);
      cbn [negb andb]; split; try reflexivity;
      split; intros (H1 & H2 & H3); try discriminate; auto.
Qed.

(** ** Multiplication, further *)

Lemma mul_inner_total (x y : list Z) (i : nat) (buf : list Z) :
  (i < length x)%nat -> length buf = (length x + length y)%nat ->
  exists st, mul_inner x y i buf = Ok st /\ length (fst st) = length buf.
Proof.
  intros Hi Hlen. unfold mul_inner.
  apply (for_range_inv (fun _ st => length (fst st) = length buf));
    [lia | reflexivity |].
  intros j [b carry] Hj Hb. cbn [fst] in Hb.
  destruct (vec_at_lt x i Hi) as (xi & _ & ->).
  destruct (vec_at_lt y j ltac:(lia)) as (yj & _ & ->).
  destruct (vec_at_lt b (i + j) ltac:(lia)) as (r & _ & ->). cbn [bind].
  rewrite vec_set_ok by lia. cbn [bind]. eexists. split; [reflexivity|].
  cbn [fst]. now rewrite length_insert.
Qed.

(** X17: [operator*] never leaves the digit vectors, whatever the two values
    hold: every read and write of the buffer of [size(a) + size(b)] digits is
    in range, and the result has at most that many digits. *)
Theorem mul_op_in_bounds (a b : bigint) :
  exists r,
    mul_op a b = Ok r /\
    (length (digits r) <= length (digits a) + length (digits b))%nat.
Proof.
  unfold mul_op.
  match goal with
  | |- context [for_range ?lo ?hi ?body ?s] =>
      destruct (for_range_inv
                  (fun _ buf => length buf
                                = (length (digits a) + length (digits b))%nat)
                  body lo hi s)
        as (buf & -> & Hlen); [lia | apply length_replicate | |]
  end.
  - intros i buf Hi Hbuf.
    destruct (mul_inner_total (digits a) (digits b) i buf ltac:(lia) Hbuf)
      as ([buf' carry] & -> & Hl). cbn [fst bind] in *.
    destruct (vec_at_lt buf' (i + length (digits b)) ltac:(lia))
      as (r & _ & ->). cbn [bind].
    rewrite vec_set_ok by lia. eexists. split; [reflexivity|].
    rewrite length_insert. lia.
  - cbn [bind]. eexists. split; [reflexivity|].
    unfold removeLeadingZeros. cbn [digits]. rewrite <- Hlen. clear.
    induction buf as [|x l IH] using rev_ind; [reflexivity|].
    rewrite pop_zeros_snoc, length_app. cbn [length].
    destruct (negb (length l =? 0)%nat && (x =? 0)); [lia|].
    rewrite length_app. cbn [length]. lia.
Qed.

Lemma mul_op_value (a b : bigint) :
  invariants a = true -> invariants b = true ->
  exists r,
    mul_op a b = Ok r /\ invariants r = true /\
    value_of r = value_of a * value_of b.
Proof.
  intros Ia Ib.
  destruct (invariants_digits a Ia) as [Ha Hna].
  destruct (invariants_digits b Ib) as [Hb Hnb].
  destruct (mul_op_digits a b Ha Hb) as (buf & -> & Hl & Hf & He).
  set (p := {| digits := buf;
               is_negative := negb (Bool.eqb (is_negative a) (is_negative b)) |}).
  assert (Hne : digits p <> []).
  { cbn [digits p]. intros ->. destruct (digits a); [congruence | discriminate]. }
  pose proof (removeLeadingZeros_sign p Hf Hne) as Hs.
  pose proof (removeLeadingZeros_eval p) as Hv.
  cbn [digits is_negative p] in Hs, Hv.
  exists (removeLeadingZeros p).
  split; [reflexivity|].
  split; [now apply removeLeadingZeros_invariants|].
  rewrite (value_of_signed _ _ _ Hv Hs), He. unfold value_of.
  destruct (is_negative a), (is_negative b); cbn [Bool.eqb negb]; lia.
Qed.

(** X18: on values that satisfy the invariants [operator*] is commutative and
    associative: both sides are computed and are the same value. *)
Theorem mul_op_comm_assoc (a b c : bigint) :
  invariants a = true -> invariants b = true -> invariants c = true ->
  mul_op a b = mul_op b a /\
  (ab <- mul_op a b ;; mul_op ab c) = (bc <- mul_op b c ;; mul_op a bc) /\
  is_ok (ab <- mul_op a b ;; mul_op ab c) = true.
Proof.
  intros Ia Ib Ic.
  destruct (mul_op_value a b Ia Ib) as (ab & Hab & Iab & Vab).
  destruct (mul_op_value b a Ib Ia) as (ba & Hba & Iba & Vba).
  destruct (mul_op_value b c Ib Ic) as (bc & Hbc & Ibc & Vbc).
  destruct (mul_op_value ab c Iab Ic) as (abc & Habc & Iabc & Vabc).
  destruct (mul_op_value a bc Ia Ibc) as (abc' & Habc' & Iabc' & Vabc').
  rewrite Hab, Hba, Hbc. cbn [bind]. rewrite Habc, Habc'.
  repeat split; f_equal; apply invariants_value_inj; auto; lia.
Qed.

Lemma mul_op_comm_assoc_witness :
  let a := {| digits := [2; 1]; is_negative := true |} in
  let b := {| digits := [5]; is_negative := false |} in
  let c := {| digits := [0; 0; 3]; is_negative := true |} in
  mul_op a b = mul_op b a /\
  (ab <- mul_op a b ;; mul_op ab c) = (bc <- mul_op b c ;; mul_op a bc) /\
  is_ok (ab <- mul_op a b ;; mul_op ab c) = true.
Proof.
  exact (mul_op_comm_assoc
           {| digits := [2; 1]; is_negative := true |}
           {| digits := [5]; is_negative := false |}
           {| digits := [0; 0; 3]; is_negative := true |}
           eq_refl eq_refl eq_refl).
Defined.

(** X19: on a value that satisfies the invariants, multiplying by one gives
    the value back and multiplying by zero gives the non-negative zero, on
    either side; [a *= one] leaves [a] as it is and returns it. *)
Theorem mul_op_one_zero (a : bigint) :
  invariants a = true ->
  let one := {| digits := [1]; is_negative := false |} in
  mul_op a one = Ok a /\ mul_op one a = Ok a /\
  mul_op a bigint_default = Ok bigint_default /\
  mul_op bigint_default a = Ok bigint_default /\
  mul_assign a one = Ok (a, a).
Proof.
  intros Ia one.
  assert (I1 : invariants one = true) by reflexivity.
  assert (I0 : invariants bigint_default = true) by reflexivity.
  unfold mul_assign.
  destruct (mul_op_value a one Ia I1) as (r1 & -> & J1 & V1).
  destruct (mul_op_value one a I1 Ia) as (r2 & -> & J2 & V2).
  destruct (mul_op_value a bigint_default Ia I0) as (r3 & -> & J3 & V3).
  destruct (mul_op_value bigint_default a I0 Ia) as (r4 & -> & J4 & V4).
  change (value_of one) with 1 in *.
  change (value_of bigint_default) with 0 in *.
  assert (r1 = a) as -> by (apply invariants_value_inj; auto; lia).
  repeat split; f_equal; apply invariants_value_inj; auto;
    change (value_of bigint_default) with 0; lia.
Qed.

Lemma mul_op_one_zero_witness :
  let a := {| digits := [4; 3; 2]; is_negative := true |} in
  let one := {| digits := [1]; is_negative := false |} in
  mul_op a one = Ok a /\ mul_op one a = Ok a /\
  mul_op a bigint_default = Ok bigint_default /\
  mul_op bigint_default a = Ok bigint_default /\
  mul_assign a one = Ok (a, a).
Proof.
  exact (mul_op_one_zero {| digits := [4; 3; 2]; is_negative := true |} eq_refl).
Defined.

(** ** Laws of addition and subtraction *)

Lemma invariants_sign (a : bigint) :
  invariants a = true -> (is_negative a = true <-> value_of a < 0).
Proof.
  intros Ia. destruct (invariants_elim a Ia) as (_ & Hd & _ & Hz).
  pose proof (eval_bounds _ Hd). unfold value_of.
  destruct (is_negative a); split; try discriminate; try lia; auto.
Qed.

Lemma invariants_nonneg (a : bigint) :
  invariants a = true -> 0 <= value_of a -> is_negative a = false.
Proof.
  intros Ia Hv. destruct (is_negative a) eqn:E; [|reflexivity].
  apply (invariants_sign a Ia) in E. lia.
Qed.

Lemma invariants_nonneg_value (a : bigint) :
  invariants a = true -> is_negative a = false -> 0 <= value_of a.
Proof.
  intros Ia Sa. destruct (invariants_elim a Ia) as (_ & Hd & _ & _).
  pose proof (eval_bounds _ Hd). unfold value_of. rewrite Sa. lia.
Qed.

(** X20: on a value [a] that satisfies the invariants, [a - 0] and [0 + a] are
    [a], and [a - a] and [a + (-a)] are the non-negative zero. *)
Theorem sub_add_identities (a : bigint) :
  invariants a = true ->
  sub_op a bigint_default = Ok a /\
  add_op bigint_default a = Ok a /\
  sub_op a a = Ok bigint_default /\
  add_op a (neg_op a) = Ok bigint_default.
Proof.
  intros Ia.
  assert (I0 : invariants bigint_default = true) by reflexivity.
  destruct (sub_op_exact_unless_negative_sizes a bigint_default Ia I0)
    as (r1 & -> & J1 & V1); [discriminate|].
  destruct (add_op_exact_unless_negative_sizes bigint_default a I0 Ia)
    as (r2 & -> & J2 & V2); [discriminate|].
  destruct (sub_op_exact_unless_negative_sizes a a Ia Ia)
    as (r3 & -> & J3 & V3); [reflexivity|].
  change (value_of bigint_default) with 0 in *.
  repeat split; try (f_equal; apply invariants_value_inj; auto;
                     change (value_of bigint_default) with 0; lia).
  destruct (Z.eq_dec (value_of a) 0) as [Hz|Hnz].
  - assert (a = bigint_default) as ->
      by (apply invariants_value_inj; auto).
    reflexivity.
  - assert (In : invariants (neg_op a) = true).
    { destruct (invariants_elim a Ia) as (Hn & Hd & Ht & _).
      destruct a as [ds s]. apply invariants_intro; auto.
      intros _ E. apply Hnz. unfold value_of. cbn [digits is_negative] in *.
      rewrite E. now destruct s. }
    destruct (add_op_exact_unless_negative_sizes a (neg_op a) Ia In)
      as (r4 & -> & J4 & V4); [reflexivity|].
    f_equal. apply invariants_value_inj; auto.
    rewrite V4. change (value_of bigint_default) with 0.
    unfold value_of, neg_op. cbn [digits is_negative].
    destruct (is_negative a); cbn [negb]; lia.
Qed.

Lemma sub_add_identities_witness :
  let a := {| digits := [0; 5; 2]; is_negative := true |} in
  sub_op a bigint_default = Ok a /\
  add_op bigint_default a = Ok a /\
  sub_op a a = Ok bigint_default /\
  add_op a (neg_op a) = Ok bigint_default.
Proof.
  exact (sub_add_identities {| digits := [0; 5; 2]; is_negative := true |}
           eq_refl).
Defined.

(** X21: [operator+] is commutative on values that satisfy the invariants and
    have the same sign flag or the same digit count: both sums are computed
    and are the same value. *)
Theorem add_op_comm (a b : bigint) :
  invariants a = true -> invariants b = true ->
  is_negative a = is_negative b \/ length (digits a) = length (digits b) ->
  add_op a b = add_op b a /\ is_ok (add_op a b) = true.
Proof.
  intros Ia Ib H.
  destruct (add_op_exact_unless_negative_sizes a b Ia Ib)
    as (r & -> & J & V).
  { intros Sa Sb. destruct H as [H|H]; [congruence | assumption]. }
  destruct (add_op_exact_unless_negative_sizes b a Ib Ia)
    as (r' & -> & J' & V').
  { intros Sb Sa. destruct H as [H|H]; [congruence | auto]. }
  split; [|reflexivity]. f_equal. apply invariants_value_inj; auto. lia.
Qed.

Lemma add_op_comm_witness :
  let a := {| digits := [9; 9]; is_negative := true |} in
  let b := {| digits := [1; 0; 0; 1]; is_negative := true |} in
  add_op a b = add_op b a /\ is_ok (add_op a b) = true.
Proof.
  exact (add_op_comm {| digits := [9; 9]; is_negative := true |}
                     {| digits := [1; 0; 0; 1]; is_negative := true |}
                     eq_refl eq_refl (or_introl eq_refl)).
Defined.

(** X22: [operator+] is associative on three values that satisfy the
    invariants and have the same sign flag. *)
Theorem add_op_assoc (a b c : bigint) :
  invariants a = true -> invariants b = true -> invariants c = true ->
  is_negative a = is_negative b -> is_negative b = is_negative c ->
  (ab <- add_op a b ;; add_op ab c) = (bc <- add_op b c ;; add_op a bc) /\
  is_ok (ab <- add_op a b ;; add_op ab c) = true.
Proof.
  intros Ia Ib Ic Sab Sbc.
  destruct (add_op_exact_unless_negative_sizes a b Ia Ib)
    as (ab & -> & Iab & Vab); [congruence|].
  destruct (add_op_exact_unless_negative_sizes b c Ib Ic)
    as (bc & -> & Ibc & Vbc); [congruence|].
  cbn [bind].
  pose proof (invariants_sign a Ia) as Ha.
  pose proof (invariants_sign b Ib) as Hb.
  pose proof (invariants_sign c Ic) as Hc.
  pose proof (invariants_sign ab Iab) as Hab.
  pose proof (invariants_sign bc Ibc) as Hbc.
  destruct (add_op_exact_unless_negative_sizes ab c Iab Ic)
    as (r & -> & Ir & Vr).
  { intros S1 S2. exfalso.
    destruct (is_negative a), (is_negative b), (is_negative c);
      try discriminate. apply Hab in S1. lia. }
  destruct (add_op_exact_unless_negative_sizes a bc Ia Ibc)
    as (r' & -> & Ir' & Vr').
  { intros S1 S2. exfalso.
    destruct (is_negative a), (is_negative b), (is_negative c);
      try discriminate.
    assert (is_negative bc = true) by (apply Hbc; lia). congruence. }
  split; [|reflexivity]. f_equal. apply invariants_value_inj; auto. lia.
Qed.

Lemma add_op_assoc_witness :
  let a := {| digits := [9; 9]; is_negative := false |} in
  let b := {| digits := [1]; is_negative := false |} in
  let c := {| digits := [0; 0; 9]; is_negative := false |} in
  (ab <- add_op a b ;; add_op ab c) = (bc <- add_op b c ;; add_op a bc) /\
  is_ok (ab <- add_op a b ;; add_op ab c) = true.
Proof.
  exact (add_op_assoc {| digits := [9; 9]; is_negative := false |}
                      {| digits := [1]; is_negative := false |}
                      {| digits := [0; 0; 9]; is_negative := false |}
                      eq_refl eq_refl eq_refl eq_refl eq_refl).
Defined.

(** X23: for three non-negative values that satisfy the invariants,
    [(a + b) * c] and [a * c + b * c] are both computed and are the same
    value. *)
Theorem mul_add_distr_nonneg (a b c : bigint) :
  invariants a = true -> invariants b = true -> invariants c = true ->
  is_negative a = false -> is_negative b = false -> is_negative c = false ->
  (ab <- add_op a b ;; mul_op ab c)
  = (ac <- mul_op a c ;; bc <- mul_op b c ;; add_op ac bc) /\
  is_ok (ab <- add_op a b ;; mul_op ab c) = true.
Proof.
  intros Ia Ib Ic Sa Sb Sc.
  pose proof (invariants_nonneg_value a Ia Sa).
  pose proof (invariants_nonneg_value b Ib Sb).
  pose proof (invariants_nonneg_value c Ic Sc).
  destruct (add_op_exact_unless_negative_sizes a b Ia Ib)
    as (ab & -> & Iab & Vab); [congruence|].
  destruct (mul_op_value a c Ia Ic) as (ac & -> & Iac & Vac).
  destruct (mul_op_value b c Ib Ic) as (bc & -> & Ibc & Vbc).
  cbn [bind].
  destruct (mul_op_value ab c Iab Ic) as (r & -> & Ir & Vr).
  destruct (add_op_exact_unless_negative_sizes ac bc Iac Ibc)
    as (r' & -> & Ir' & Vr').
  { intros S1 _. apply (invariants_sign ac Iac) in S1. nia. }
  split; [|reflexivity]. f_equal. apply invariants_value_inj; auto. nia.
Qed.

Lemma mul_add_distr_nonneg_witness :
  let a := {| digits := [0; 0; 1]; is_negative := false |} in
  let b := {| digits := [0; 5]; is_negative := false |} in
  let c := {| digits := [0; 2]; is_negative := false |} in
  (ab <- add_op a b ;; mul_op ab c)
  = (ac <- mul_op a c ;; bc <- mul_op b c ;; add_op ac bc) /\
  is_ok (ab <- add_op a b ;; mul_op ab c) = true.
Proof.
  exact (mul_add_distr_nonneg {| digits := [0; 0; 1]; is_negative := false |}
                              {| digits := [0; 5]; is_negative := false |}
                              {| digits := [0; 2]; is_negative := false |}
                              eq_refl eq_refl eq_refl eq_refl eq_refl eq_refl).
Defined.

(** X24: for three non-negative values that satisfy the invariants, with [c]
    not above [a], [(a + b) - c] and [(a - c) + b] are both computed and are
    the same value. *)
Theorem add_sub_exchange_nonneg (a b c : bigint) :
  invariants a = true -> invariants b = true -> invariants c = true ->
  is_negative a = false -> is_negative b = false -> is_negative c = false ->
  value_of c <= value_of a ->
  (ab <- add_op a b ;; sub_op ab c) = (ac <- sub_op a c ;; add_op ac b) /\
  is_ok (ab <- add_op a b ;; sub_op ab c) = true.
Proof.
  intros Ia Ib Ic Sa Sb Sc Hle.
  pose proof (invariants_nonneg_value a Ia Sa).
  pose proof (invariants_nonneg_value b Ib Sb).
  pose proof (invariants_nonneg_value c Ic Sc).
  destruct (add_op_exact_unless_negative_sizes a b Ia Ib)
    as (ab & -> & Iab & Vab); [congruence|].
  destruct (sub_op_exact_unless_negative_sizes a c Ia Ic)
    as (ac & -> & Iac & Vac); [congruence|].
  cbn [bind].
  destruct (sub_op_exact_unless_negative_sizes ab c Iab Ic)
    as (r & -> & Ir & Vr); [congruence|].
  destruct (add_op_exact_unless_negative_sizes ac b Iac Ib)
    as (r' & -> & Ir' & Vr').
  { intros S1 _. apply (invariants_sign ac Iac) in S1. lia. }
  split; [|reflexivity]. f_equal. apply invariants_value_inj; auto. lia.
Qed.

Lemma add_sub_exchange_nonneg_witness :
  let a := {| digits := [0; 0; 0; 1]; is_negative := false |} in
  let b := {| digits := [0; 0; 5]; is_negative := false |} in
  let c := {| digits := [0; 0; 2]; is_negative := false |} in
  (ab <- add_op a b ;; sub_op ab c) = (ac <- sub_op a c ;; add_op ac b) /\
  is_ok (ab <- add_op a b ;; sub_op ab c) = true.
Proof.
  apply (add_sub_exchange_nonneg
           {| digits := [0; 0; 0; 1]; is_negative := false |}
           {| digits := [0; 0; 5]; is_negative := false |}
           {| digits := [0; 0; 2]; is_negative := false |});
    try reflexivity.
  vm_compute. discriminate.
Defined.

(** ** Text, integers and negation, further *)

(** X25: the string constructor throws "Invalid input string" exactly on the
    empty text and "Invalid digit in string" exactly on a non-empty text with
    a character other than a digit after the optional sign; it never reads
    outside of the text, and accepts every other text. *)
Theorem bigint_of_string_errors (s : list ascii) :
  (bigint_of_string s = Err (invalid_argument "Invalid input string"%string)
   <-> s = []) /\
  (bigint_of_string s = Err (invalid_argument "Invalid digit in string"%string)
   <-> s <> [] /\ forallb isdigit (text_body s) = false) /\
  bigint_of_string s <> Err index_out_of_range /\
  is_ok (bigint_of_string s)
    = negb (length s =? 0)%nat && forallb isdigit (text_body s).
Proof.
  rewrite bigint_of_string_spec. destruct s as [|c s].
  - cbn. repeat split; try discriminate; try tauto.
  - destruct (forallb isdigit (text_body (c :: s)));
      cbn [length Nat.eqb negb andb is_ok];
      repeat split; try discriminate; try tauto.
    intros [_ H]. discriminate.
Qed.

Lemma digit_char_value (d : Z) :
  is_digit d ->
  isdigit (digit_char d) = true /\
  digit_value (digit_char d) = d /\
  print_int d = [digit_char d] /\
  Ascii.eqb (digit_char d) "-"%char = false.
Proof.
  unfold is_digit. intros H.
  assert (d = 0 \/ d = 1 \/ d = 2 \/ d = 3 \/ d = 4 \/ d = 5 \/ d = 6 \/
          d = 7 \/ d = 8 \/ d = 9) as Hd by lia.
  repeat (destruct Hd as [->|Hd]; [vm_compute; auto|]).
  subst d. vm_compute. auto.
Qed.

Lemma format_digits (ds : list Z) :
  Forall is_digit ds ->
  concat (map print_int ds) = map digit_char ds /\
  forallb isdigit (map digit_char ds) = true /\
  map digit_value (map digit_char ds) = ds.
Proof.
  induction 1 as [|d ds Hd _ (IH1 & IH2 & IH3)]; [auto|].
  destruct (digit_char_value d Hd) as (H1 & H2 & H3 & _).
  cbn [map concat forallb]. rewrite H1, H2, H3, IH1, IH2, IH3. auto.
Qed.

(** X26: printing a value that satisfies the invariants and constructing a
    value from the printed text gives the value back; the printed text is in
    the grammar of the string constructor and is its own canonical form. *)
Theorem parse_format_roundtrip (a : bigint) :
  invariants a = true ->
  exists s,
    format a = Ok s /\
    bigint_of_string s = Ok a /\
    matches_grammar s = true /\
    canonical s = s.
Proof.
  intros Ia. destruct (invariants_elim a Ia) as (Hn & Hd & Ht & Hz).
  rewrite format_spec.
  destruct (format_digits (rev (digits a)) (List.Forall_rev Hd))
    as (Hp & Hdig & Hval).
  rewrite Hp. set (t := map digit_char (rev (digits a))) in *.
  assert (Htn : t <> []).
  { unfold t. intros E. apply (f_equal (@length ascii)) in E.
    rewrite length_map, length_rev in E.
    destruct (digits a); [congruence | discriminate]. }
  assert (Hts : has_sign t = false).
  { unfold t. destruct (rev (digits a)) as [|d l] eqn:E; [reflexivity|].
    cbn [map has_sign]. apply digit_char_value.
    apply List.Forall_rev in Hd. rewrite E in Hd. now apply Forall_inv in Hd. }
  set (s := (if is_negative a then ["-"%char] else []) ++ t).
  assert (Hs : has_sign s = is_negative a).
  { unfold s. destruct (is_negative a); [reflexivity | exact Hts]. }
  assert (Hb : text_body s = t).
  { unfold text_body. rewrite Hs. unfold s.
    destruct (is_negative a); reflexivity. }
  assert (Hsn : s <> []).
  { unfold s. destruct (is_negative a); [discriminate | exact Htn]. }
  assert (Hrev : map digit_value (rev t) = digits a).
  { unfold t. rewrite <- map_rev, rev_involutive.
    apply (format_digits (digits a) Hd). }
  assert (Hparse : bigint_of_string s = Ok a).
  { rewrite bigint_of_string_spec, Hb, Hdig, Hrev, Hs.
    destruct s; [congruence|]. f_equal.
    replace {| digits := digits a; is_negative := is_negative a |} with a
      by (now destruct a).
    now apply removeLeadingZeros_fixed. }
  exists s. split; [reflexivity|]. split; [exact Hparse|].
  assert (Hg : matches_grammar s = true).
  { unfold matches_grammar. rewrite Hb, Hdig, andb_true_r.
    destruct t; [congruence | reflexivity]. }
  split; [exact Hg|].
  assert (Hstrip : strip_leading_zeros t = t).
  { pose proof (pop_zeros_parsed t Hdig) as Hpz.
    rewrite Hrev, (pop_zeros_fixed _ Ht), <- Hrev in Hpz.
    apply (f_equal (map digit_char)) in Hpz.
    pose proof (strip_leading_zeros_digits t Hdig) as Hsd.
    assert (Hid : forall u, forallb isdigit u = true ->
                            map digit_char (map digit_value (rev u)) = rev u).
    { intros u Hu. rewrite map_map.
      rewrite <- (map_id (rev u)) at 2. apply map_ext_in.
      intros c Hc. apply in_rev in Hc. rewrite forallb_forall in Hu.
      specialize (Hu c Hc). clear - Hu.
      destruct c as [[] [] [] [] [] [] [] []]; try discriminate Hu;
        reflexivity. }
    rewrite (Hid t Hdig), (Hid _ Hsd) in Hpz.
    apply (f_equal (@rev ascii)) in Hpz. now rewrite !rev_involutive in Hpz. }
  unfold canonical. rewrite Hb, Hstrip, Hs.
  destruct (is_negative a) eqn:Sa; [|reflexivity].
  replace (is_zero_text t) with false; [reflexivity|].
  symmetry. destruct t as [|c [|c' t']] eqn:Et; try reflexivity.
  cbn [is_zero_text]. apply not_true_is_false. intros E.
  apply Ascii.eqb_eq in E. subst c.
  apply Hz; [reflexivity|]. rewrite <- Hrev. reflexivity.
Qed.

Lemma parse_format_roundtrip_witness :
  exists s,
    format {| digits := [0; 2; 1]; is_negative := true |} = Ok s /\
    bigint_of_string s = Ok {| digits := [0; 2; 1]; is_negative := true |} /\
    matches_grammar s = true /\
    canonical s = s.
Proof.
  exact (parse_format_roundtrip {| digits := [0; 2; 1]; is_negative := true |}
           eq_refl).
Defined.

(** X27: for every 64-bit integer other than the smallest one the integer
    constructor builds the decimal digits of the absolute value and sets the
    sign flag of a negative argument; for a non-negative argument the flag is
    left as it was, and when it reads as false the value satisfies the
    invariants and denotes the argument. *)
Theorem bigint_of_int64_value (n : Z) :
  int64_min < n <= int64_max ->
  (forall indeterminate,
      eval (digits (bigint_of_int64 indeterminate n)) = Z.abs n /\
      is_negative (bigint_of_int64 indeterminate n)
        = (if n <? 0 then true else indeterminate)) /\
  value_of (bigint_of_int64 false n) = n /\
  invariants (bigint_of_int64 false n) = true.
Proof.
  intros Hn. split; [|split].
  - intros indet. destruct (bigint_of_int64_spec indet n Hn) as (H1 & H2 & _).
    auto.
  - destruct (bigint_of_int64_spec false n Hn) as (H1 & H2 & _).
    unfold value_of. rewrite H1, H2. destruct (Z.ltb_spec n 0); lia.
  - destruct (bigint_of_int64_spec false n Hn) as (_ & _ & H3 & H4).
    destruct (Z.eq_dec n 0) as [Hz|Hnz]; [|now apply H4].
    now rewrite (H3 Hz eq_refl).
Qed.

Lemma bigint_of_int64_value_witness :
  (forall indeterminate,
      eval (digits (bigint_of_int64 indeterminate (-9223372036854775807)))
        = 9223372036854775807 /\
      is_negative (bigint_of_int64 indeterminate (-9223372036854775807))
        = true) /\
  value_of (bigint_of_int64 false (-9223372036854775807))
    = -9223372036854775807 /\
  invariants (bigint_of_int64 false (-9223372036854775807)) = true.
Proof.
  apply (bigint_of_int64_value (-9223372036854775807)).
  unfold int64_min, int64_max. lia.
Defined.

(** X28: on a value that satisfies the invariants, unary negation negates the
    integer; the result satisfies the invariants exactly when the value is not
    zero. *)
Theorem neg_op_value (a : bigint) :
  invariants a = true ->
  value_of (neg_op a) = - value_of a /\
  invariants (neg_op a) = negb (value_of a =? 0).
Proof.
  intros Ia. split.
  - unfold value_of, neg_op. cbn [digits is_negative].
    destruct (is_negative a); cbn [negb]; lia.
  - destruct (Z.eqb_spec (value_of a) 0) as [Hz|Hnz]; cbn [negb].
    + assert (a = bigint_default) as ->
        by (apply invariants_value_inj; auto).
      reflexivity.
    + destruct (invariants_elim a Ia) as (Hn & Hd & Ht & _).
      destruct a as [ds s]. apply invariants_intro; auto.
      intros _ E. apply Hnz. unfold value_of. cbn [digits is_negative] in *.
      rewrite E. now destruct s.
Qed.

Lemma neg_op_value_witness :
  let a := {| digits := [9; 8; 7]; is_negative := false |} in
  value_of (neg_op a) = -789 /\ invariants (neg_op a) = true.
Proof.
  exact (neg_op_value {| digits := [9; 8; 7]; is_negative := false |} eq_refl).
Defined.

(** ** Increment and decrement
    In this part the sign flag that [bigint(1)] leaves unassigned reads as
    false. *)





